(** * audio_collector: a shallow embedding of [audio_collector.py]

    The script polls a playlist, downloads the last [.aac] segment it
    lists, appends it to the combined file of the active schedule
    period and remembers the segment in [PROCESSED_FILES].

    Python values are modelled as follows.
    - [str] is [string]; its characters are code points below 256.
    - [datetime.time] is the record [time]; comparison is Python's
      comparison of the tuples (hour, minute, second, microsecond).
    - [set()] of file names is [gset string].
    - The disk is a [gmap string bytes] from paths to file contents.
    - Exceptions are the outcomes of a small state-and-exception monad.
    - The network, the clock and the I/O failures are inputs. *)

From Stdlib Require Import Ascii String List Bool Arith ZArith Lia.
From stdpp Require Import base option list gmap sets strings.

Local Open Scope string_scope.
Local Open Scope list_scope.
Local Open Scope nat_scope.

(** ** Python string operations *)

Module PyStr.

Definition code (c : ascii) : nat := nat_of_ascii c.

(** [str.isspace] on one character, for code points below 256. *)
Definition is_space (c : ascii) : bool :=
  let n := code c in
  ((9 <=? n) && (n <=? 13)) || ((28 <=? n) && (n <=? 32))
  || (n =? 133) || (n =? 160).

(** The line boundaries of [str.splitlines], except that "\r\n" counts
    as one boundary (handled in [splitlines]). *)
Definition is_linebreak (c : ascii) : bool :=
  let n := code c in
  ((10 <=? n) && (n <=? 13)) || ((28 <=? n) && (n <=? 30)) || (n =? 133).

Definition is_digit (c : ascii) : bool :=
  let n := code c in (48 <=? n) && (n <=? 57).

Definition digit_val (c : ascii) : nat := code c - 48.

Definition is_empty (s : string) : bool :=
  match s with EmptyString => true | String _ _ => false end.

Fixpoint lstrip (s : string) : string :=
  match s with
  | EmptyString => EmptyString
  | String c r => if is_space c then lstrip r else s
  end.

Fixpoint rstrip (s : string) : string :=
  match s with
  | EmptyString => EmptyString
  | String c r =>
      let r' := rstrip r in
      if is_space c && is_empty r' then EmptyString else String c r'
  end.

(** [s.strip()] *)
Definition strip (s : string) : string := rstrip (lstrip s).

(** [s.split(sep)] for a one-character separator: never empty. *)
Fixpoint split (sep : ascii) (s : string) : list string :=
  match s with
  | EmptyString => [EmptyString]
  | String c r =>
      if Ascii.eqb c sep then EmptyString :: split sep r
      else match split sep r with
           | h :: t => String c h :: t
           | [] => [String c EmptyString]
           end
  end.

(** [s.splitlines()] *)
Fixpoint splitlines (s : string) : list string :=
  match s with
  | EmptyString => []
  | String c r =>
      if is_linebreak c then
        match r with
        | String c' r' =>
            if (code c =? 13) && (code c' =? 10)
            then EmptyString :: splitlines r'
            else EmptyString :: splitlines r
        | EmptyString => [EmptyString]
        end
      else match splitlines r with
           | h :: t => String c h :: t
           | [] => [String c EmptyString]
           end
  end.

Fixpoint startswith (p s : string) : bool :=
  match p, s with
  | EmptyString, _ => true
  | String a p', String b s' => Ascii.eqb a b && startswith p' s'
  | String _ _, EmptyString => false
  end.

(** [p in s] *)
Fixpoint contains (p s : string) : bool :=
  startswith p s
  || match s with
     | EmptyString => false
     | String _ r => contains p r
     end.

(** Two decimal digits, as [%H], [%M], [%m] and [%d] print them. *)
Definition digit_char (n : nat) : ascii := ascii_of_nat (48 + n mod 10).

Definition pad2 (n : nat) : string :=
  String (digit_char (n / 10)) (String (digit_char n) EmptyString).

(** Four decimal digits, as [%Y] prints a year from 1000 to 9999. *)
Definition pad4 (n : nat) : string := pad2 (n / 100) ++ pad2 n.

End PyStr.

(** ** Times of day, dates and schedule windows *)

Record time := mk_time {
  hour : nat; minute : nat; second : nat; microsecond : nat
}.

Record date := mk_date { year : nat; month : nat; day : nat }.

(** A schedule window is the tuple [(start_time, end_time)]. *)
Definition window : Type := time * time.

#[global] Instance time_eq_dec : EqDecision time.
Proof. solve_decision. Defined.

#[global] Instance date_eq_dec : EqDecision date.
Proof. solve_decision. Defined.

(** [a <= b] on [datetime.time]: the tuples (hour, minute, second,
    microsecond) compared lexicographically. *)
Definition time_compare (a b : time) : comparison :=
  match hour a ?= hour b with
  | Eq => match minute a ?= minute b with
          | Eq => match second a ?= second b with
                  | Eq => microsecond a ?= microsecond b
                  | c => c
                  end
          | c => c
          end
  | c => c
  end.

Definition time_leb (a b : time) : bool :=
  match time_compare a b with Gt => false | _ => true end.

Definition time_le (a b : time) : Prop := time_leb a b = true.

(** [get_current_period(schedule)], with the clock reading
    [datetime.now().time()] as the argument [current_time]. *)
Fixpoint get_current_period (schedule : list window) (current_time : time)
  : option window :=
  match schedule with
  | [] => None
  | (start, end_) :: rest =>
      if time_leb start end_ then
        if time_leb start current_time && time_leb current_time end_
        then Some (start, end_)
        else get_current_period rest current_time
      else
        if time_leb start current_time || time_leb current_time end_
        then Some (start, end_)
        else get_current_period rest current_time
  end.

(** ** [datetime.strptime(s, "%H:%M").time()]

    The format compiles to the regular expression
    [(2[0-3]|[0-1]\d|\d):([0-5]\d|\d)], matched at the start of [s]
    with backtracking; a match that leaves characters unread is a
    [ValueError], as is no match. *)

Module Strptime.
Import PyStr.

(** What the hour group can match at the head of [s], in the order the
    alternatives are tried, each with the text that follows it. *)
Definition hour_alternatives (s : string) : list (nat * string) :=
  match s with
  | String a r =>
      match r with
      | String b r' =>
          (if (code a =? 50) && (48 <=? code b) && (code b <=? 51)
           then [(20 + digit_val b, r')] else [])
          ++ (if (48 <=? code a) && (code a <=? 49) && is_digit b
              then [(10 * digit_val a + digit_val b, r')] else [])
      | EmptyString => []
      end
      ++ (if is_digit a then [(digit_val a, r)] else [])
  | EmptyString => []
  end.

Definition minute_alternatives (s : string) : list (nat * string) :=
  match s with
  | String a r =>
      match r with
      | String b r' =>
          if (48 <=? code a) && (code a <=? 53) && is_digit b
          then [(10 * digit_val a + digit_val b, r')] else []
      | EmptyString => []
      end
      ++ (if is_digit a then [(digit_val a, r)] else [])
  | EmptyString => []
  end.

(** After an hour: a colon, then the first minute alternative. *)
Definition colon_minute (hr : nat * string) : list (nat * nat * string) :=
  match snd hr with
  | String c r =>
      if code c =? 58 then
        match minute_alternatives r with
        | (m, rest) :: _ => [(fst hr, m, rest)]
        | [] => []
        end
      else []
  | EmptyString => []
  end.

(** The first match of the whole expression. *)
Definition regex_match (s : string) : option (nat * nat * string) :=
  head (flat_map colon_minute (hour_alternatives s)).

(** [None] stands for the [ValueError]. *)
Definition strptime_HM (s : string) : option time :=
  match regex_match s with
  | Some (h, m, EmptyString) => Some (mk_time h m 0 0)
  | _ => None
  end.

End Strptime.

(** ** The world the script runs in *)

Definition bytes : Type := list Byte.byte.

Inductive exn :=
| IndexError | ValueError | TypeError | OSError | RequestException.

#[global] Instance exn_eq_dec : EqDecision exn.
Proof. solve_decision. Defined.

(** The lines the script prints; an exception's text is left out. *)
Inductive message :=
| NoAudioUrls
| SkippingProcessed (file_name : string)
| Downloaded (file_name : string)
| Appended (file_name : string) (combined_file_path : string)
| FailedDownload (last_url : string)
| ErrorFetchingPlaylist
| ScheduleNotFound (schedule_file : string)
| FailedLoadSchedule
| ApiFileNotFound (api_file : string)
| FailedLoadApiUrl
| NoValidApiUrl
| NewPeriod (period : window) (combined_file : string)
| NoActivePeriod.

(** What an observer of the process sees, oldest first. *)
Inductive event :=
| Print (m : message)
| HttpGet (url : string)
| AppendedTo (path : string) (data : bytes)
| Sleep (seconds : nat).

(** A text file as an iteration finds it. *)
Inductive file :=
| Missing
| Unreadable
| Readable (text : string).

(** The answer to the [GET] of a segment: refused ([requests.get] or
    [raise_for_status] raises), broken (the body cannot be read when
    [response.content] asks for it), or served. *)
Inductive download :=
| DlRefused
| DlBroken
| DlServed (content : bytes).

(** The file operation of the cycle that fails, if one does. *)
Inductive io_fault :=
| NoFault
| MakedirsFails
| TempOpenFails
| TempWriteFails
| TempReopenFails
| CombinedOpenFails
| CombinedWriteFails (written : nat)
| RemoveFails.

(** The network and the disk's failures during one cycle. *)
Record outside := mk_outside {
  playlist_of : string -> option string;
  segment_of : string -> download;
  fault : io_fault
}.

(** The module's globals, the disk and the observed events. *)
Record state := mk_state {
  current_period : option window;
  current_combined_file : option string;
  PROCESSED_FILES : gset string;
  disk : gmap string bytes;
  trace : list event
}.

Definition set_current_period (p : option window) (s : state) : state :=
  mk_state p (current_combined_file s) (PROCESSED_FILES s) (disk s) (trace s).

Definition set_current_combined_file (f : option string) (s : state) : state :=
  mk_state (current_period s) f (PROCESSED_FILES s) (disk s) (trace s).

Definition set_processed (ps : gset string) (s : state) : state :=
  mk_state (current_period s) (current_combined_file s) ps (disk s) (trace s).

Definition set_disk (d : gmap string bytes) (s : state) : state :=
  mk_state (current_period s) (current_combined_file s) (PROCESSED_FILES s)
           d (trace s).

Definition add_event (e : event) (s : state) : state :=
  mk_state (current_period s) (current_combined_file s) (PROCESSED_FILES s)
           (disk s) (trace s ++ [e]).

(** ** State and exceptions *)

Inductive result (A : Type) :=
| Ok (a : A)
| Raised (e : exn).
Arguments Ok {A} a.
Arguments Raised {A} e.

Definition M (A : Type) : Type := state -> result A * state.

Definition ret {A} (a : A) : M A := fun s => (Ok a, s).

Definition bind {A B} (m : M A) (k : A -> M B) : M B :=
  fun s => match m s with
           | (Ok a, s') => k a s'
           | (Raised e, s') => (Raised e, s')
           end.

Definition raise {A} (e : exn) : M A := fun s => (Raised e, s).

(** [try: body  except <class>: handler] *)
Definition try_except {A} (body : M A) (caught : exn -> bool) (handler : M A)
  : M A :=
  fun s => match body s with
           | (Raised e, s') => if caught e then handler s' else (Raised e, s')
           | r => r
           end.

Definition get_state : M state := fun s => (Ok s, s).
Definition modify (f : state -> state) : M unit := fun s => (Ok tt, f s).
Definition emit (e : event) : M unit := modify (add_event e).
Definition print (m : message) : M unit := emit (Print m).

Declare Scope py_scope.
Delimit Scope py_scope with py.
Notation "x <- m ;; k" := (bind m (fun x => k))
  (at level 100, m at next level, right associativity) : py_scope.
Notation "m ;; k" := (bind m (fun _ => k))
  (at level 100, right associativity) : py_scope.
Local Open Scope py_scope.

(** [except requests.RequestException] *)
Definition is_request_exception (e : exn) : bool :=
  match e with RequestException => true | _ => false end.

(** ** Reading the configuration *)

(** The lines a text file yields to [for line in f]: each keeps its
    terminator, and "\r\n" and "\r" read as "\n". *)
Fixpoint readlines (s : string) : list string :=
  match s with
  | EmptyString => []
  | String c r =>
      if PyStr.code c =? 10 then String c EmptyString :: readlines r
      else if PyStr.code c =? 13 then
        match r with
        | String c' r' =>
            if PyStr.code c' =? 10
            then String c' EmptyString :: readlines r'
            else String (ascii_of_nat 10) EmptyString :: readlines r
        | EmptyString => [String (ascii_of_nat 10) EmptyString]
        end
      else match readlines r with
           | h :: t => String c h :: t
           | [] => [String c EmptyString]
           end
  end.

(** The body of [for line in f] in [load_schedule_conf], on the lines
    still to read: the list built so far, and whether [strptime] raised. *)
Fixpoint read_schedule (lines : list string) (schedule : list window)
  : list window * bool :=
  match lines with
  | [] => (schedule, false)
  | line :: rest =>
      match PyStr.split "-" (PyStr.strip line) with
      | [p0; p1] =>
          match Strptime.strptime_HM p0 with
          | None => (schedule, true)
          | Some start_time =>
              match Strptime.strptime_HM p1 with
              | None => (schedule, true)
              | Some end_time =>
                  read_schedule rest (schedule ++ [(start_time, end_time)])
              end
          end
      | _ => read_schedule rest schedule
      end
  end.

(** [load_schedule_conf(schedule_file)]; [files] is the disk's text
    files as this call finds them. *)
Definition load_schedule_conf (files : string -> file) (schedule_file : string)
  : M (list window) :=
  match files schedule_file with
  | Missing => print (ScheduleNotFound schedule_file) ;; ret []
  | Unreadable => print FailedLoadSchedule ;; ret []
  | Readable text =>
      let '(schedule, raised) := read_schedule (readlines text) [] in
      if raised then print FailedLoadSchedule ;; ret schedule
      else ret schedule
  end.

(** [load_api_url(api_file)]; Python's [None] is [None]. *)
Definition load_api_url (files : string -> file) (api_file : string)
  : M (option string) :=
  match files api_file with
  | Missing => print (ApiFileNotFound api_file) ;; ret None
  | Unreadable => print FailedLoadApiUrl ;; ret None
  | Readable text =>
      ret (Some (PyStr.strip (hd EmptyString (readlines text))))
  end.

(** ** One fetch-and-combine cycle *)

(** [f"combined_{today_date}_{start:%H%M}_{end:%H%M}.aac"] under
    [OUTPUT_DIR], joined as on POSIX. *)
Definition OUTPUT_DIR : string := "sound".
Definition SCHEDULE_FILE : string := "schedule.txt".
Definition API_FILE : string := "api_link.txt".

Definition strftime_Ymd (d : date) : string :=
  PyStr.pad4 (year d) ++ PyStr.pad2 (month d) ++ PyStr.pad2 (day d).

Definition strftime_HM (t : time) : string :=
  PyStr.pad2 (hour t) ++ PyStr.pad2 (minute t).

Definition combined_file_name (today : date) (period : window) : string :=
  OUTPUT_DIR ++ "/" ++ "combined_" ++ strftime_Ymd today ++ "_"
  ++ strftime_HM (fst period) ++ "_" ++ strftime_HM (snd period) ++ ".aac".

(** [audio_urls[-1]]; the caller has checked that the list is not empty. *)
Definition last_of (audio_urls : list string) : string :=
  List.last audio_urls EmptyString.

(** [last_url.split('_')[2].split('.')[0]] *)
Definition timestamp_of (last_url : string) : M string :=
  match nth_error (PyStr.split "_" last_url) 2 with
  | None => raise IndexError
  | Some field => ret (hd EmptyString (PyStr.split "." field))
  end.

Definition file_name_of (timestamp : string) : string :=
  "audio_" ++ timestamp ++ ".aac".

Definition fails_with (f g : io_fault) : bool :=
  match f, g with
  | MakedirsFails, MakedirsFails
  | TempOpenFails, TempOpenFails
  | TempWriteFails, TempWriteFails
  | TempReopenFails, TempReopenFails
  | CombinedOpenFails, CombinedOpenFails
  | RemoveFails, RemoveFails => true
  | _, _ => false
  end.

(** A file operation that raises [OSError] when it is the one failing. *)
Definition guard (w : outside) (op : io_fault) : M unit :=
  if fails_with (fault w) op then raise OSError else ret tt.

(** A path with a NUL character. *)
Fixpoint has_nul (path : string) : bool :=
  match path with
  | EmptyString => false
  | String c r => (PyStr.code c =? 0) || has_nul r
  end.

(** [open(path, ...)] and [os.remove(path)]: a path with a NUL character
    is a [ValueError] ("embedded null byte") before the file system is
    asked; otherwise the operation raises [OSError] when it is the one
    failing. *)
Definition file_op (w : outside) (path : string) (op : io_fault) : M unit :=
  if has_nul path then raise ValueError else guard w op.

Definition write_file (path : string) (data : bytes) : M unit :=
  modify (fun s => set_disk (<[path := data]> (disk s)) s).

Definition read_file (path : string) : M bytes :=
  s <- get_state ;;
  match disk s !! path with
  | Some data => ret data
  | None => raise OSError
  end.

Definition response_content (d : download) : M bytes :=
  match d with
  | DlServed content => ret content
  | _ => raise RequestException
  end.

Section Collector.

(** Lines 19 and 20. [urlparse] raises [ValueError] on some texts (on
    "http://[", for one: a bracket of an IPv6 address that is not
    closed); [base_url_of] is [None] there. On the others it is the
    f-string of line 20, [scheme://netloc + dirname(path) + "/"], which
    is [urllib] and [os.path] code and a function of [api_url]. *)
Variable base_url_of : string -> option string.

(** Lines 44 to 66: the body of the inner [try]. The directory of
    [os.makedirs] is the constant "temp". *)
Definition download_and_append (w : outside)
    (base_url last_url file_name : string)
    (combined_file_path : option string) : M unit :=
  let url := (base_url ++ last_url)%string in
  emit (HttpGet url) ;;
  match segment_of w url with
  | DlRefused => raise RequestException
  | response =>
      let temp_file_path := ("temp" ++ "/" ++ file_name)%string in
      guard w MakedirsFails ;;
      file_op w temp_file_path TempOpenFails ;;
      write_file temp_file_path [] ;;
      content <- response_content response ;;
      guard w TempWriteFails ;;
      write_file temp_file_path content ;;
      print (Downloaded file_name) ;;
      file_op w temp_file_path TempReopenFails ;;
      match combined_file_path with
      | None => raise TypeError
      | Some p =>
          file_op w p CombinedOpenFails ;;
          s <- get_state ;;
          write_file p (default [] (disk s !! p)) ;;
          data <- read_file temp_file_path ;;
          s <- get_state ;;
          let old := default [] (disk s !! p) in
          match fault w with
          | CombinedWriteFails written =>
              write_file p (old ++ take written data) ;; raise OSError
          | _ =>
              write_file p (old ++ data) ;;
              emit (AppendedTo p data) ;;
              print (Appended file_name p) ;;
              modify (fun s =>
                set_processed ({[file_name]} ∪ PROCESSED_FILES s) s) ;;
              file_op w temp_file_path RemoveFails ;;
              modify (fun s => set_disk (delete temp_file_path (disk s)) s)
          end
      end
  end.

(** [fetch_and_combine_last_audio(api_url, combined_file_path,
    processed_files)]; the set is the global [PROCESSED_FILES]. *)
Definition fetch_and_combine_last_audio (w : outside) (api_url : string)
    (combined_file_path : option string) : M unit :=
  try_except
    (match base_url_of api_url with
     | None => raise ValueError
     | Some base_url =>
         emit (HttpGet api_url) ;;
         match playlist_of w api_url with
         | None => raise RequestException
         | Some text =>
             let lines := PyStr.splitlines text in
             let audio_urls := List.filter (PyStr.contains ".aac") lines in
             match audio_urls with
             | [] => print NoAudioUrls
             | _ =>
                 let last_url := last_of audio_urls in
                 timestamp <- timestamp_of last_url ;;
                 let file_name := file_name_of timestamp in
                 s <- get_state ;;
                 if decide (file_name ∈ PROCESSED_FILES s)
                 then print (SkippingProcessed file_name)
                 else
                   try_except
                     (download_and_append w base_url last_url file_name
                                          combined_file_path)
                     is_request_exception
                     (print (FailedDownload last_url))
             end
         end
     end)
    is_request_exception
    (print ErrorFetchingPlaylist).

(** ** The main loop *)

(** What one iteration reads from outside the process. *)
Record tick_input := mk_tick {
  files : string -> file;
  now_time : time;
  now_date : date;
  world : outside
}.

(** Lines 163 to 172: the period just resolved against the remembered
    one. *)
Definition update_period (period : option window) (today : date) : M unit :=
  s <- get_state ;;
  if decide (period ≠ current_period s) then
    modify (set_current_period period) ;;
    match period with
    | Some p =>
        let f := combined_file_name today p in
        modify (set_current_combined_file (Some f)) ;;
        print (NewPeriod p f)
    | None => ret tt
    end
  else ret tt.

(** [if not API_URL] *)
Definition falsy (url : option string) : bool :=
  match url with
  | None => true
  | Some u => PyStr.is_empty u
  end.

(** The body of [while True]. *)
Definition iteration (i : tick_input) : M unit :=
  schedule <- load_schedule_conf (files i) SCHEDULE_FILE ;;
  API_URL <- load_api_url (files i) API_FILE ;;
  if falsy API_URL then
    print NoValidApiUrl ;; emit (Sleep 10)
  else
    let period := get_current_period schedule (now_time i) in
    update_period period (now_date i) ;;
    s <- get_state ;;
    match current_period s with
    | Some _ =>
        fetch_and_combine_last_audio (world i) (default EmptyString API_URL)
                                     (current_combined_file s)
    | None => print NoActivePeriod
    end ;;
    emit (Sleep 10).

(** The loop over the iterations that the inputs describe; it stops
    early exactly when an iteration raises. *)
Fixpoint main_loop (inputs : list tick_input) : M unit :=
  match inputs with
  | [] => ret tt
  | i :: rest => iteration i ;; main_loop rest
  end.

End Collector.

Definition initial_state : state := mk_state None None ∅ ∅ [].

(** ** Vocabulary of the statements *)

(** Microseconds since midnight. *)
Definition to_microseconds (t : time) : Z :=
  ((Z.of_nat (hour t) * 60 + Z.of_nat (minute t)) * 60
   + Z.of_nat (second t)) * 1000000 + Z.of_nat (microsecond t).

Definition valid_time (t : time) : Prop :=
  hour t < 24 ∧ minute t < 60 ∧ second t < 60
  ∧ (Z.of_nat (microsecond t) < 1000000)%Z.

(** A window contains a time: the two cases of the specification. *)
Definition window_matches (t : time) (w : window) : Prop :=
  (time_le (fst w) (snd w) ∧ time_le (fst w) t ∧ time_le t (snd w))
  ∨ (¬ time_le (fst w) (snd w) ∧ (time_le (fst w) t ∨ time_le t (snd w))).

#[global] Instance window_matches_dec t w : Decision (window_matches t w).
Proof. unfold window_matches, time_le. apply _. Defined.

(** The last segment reference of a playlist, if it has one. *)
Definition last_segment (text : string) : option string :=
  match List.filter (PyStr.contains ".aac") (PyStr.splitlines text) with
  | [] => None
  | audio_urls => Some (last_of audio_urls)
  end.

(** The segment id of a reference, if it has a third field. *)
Definition segment_id (last_url : string) : option string :=
  match nth_error (PyStr.split "_" last_url) 2 with
  | None => None
  | Some field => Some (hd EmptyString (PyStr.split "." field))
  end.

(** The scratch file of a segment. *)
Definition temp_path (file_name : string) : string :=
  "temp" ++ "/" ++ file_name.

(** The faults that let the append go through. *)
Definition append_succeeds (f : io_fault) : bool :=
  match f with NoFault | RemoveFails => true | _ => false end.

Definition is_append (e : event) : bool :=
  match e with AppendedTo _ _ => true | _ => false end.

Definition count_appends (evs : list event) : nat :=
  length (List.filter is_append evs).

(** The state after a list of events that change nothing else. *)
Definition logged (evs : list event) (s : state) : state :=
  mk_state (current_period s) (current_combined_file s) (PROCESSED_FILES s)
           (disk s) (trace s ++ evs).

(** What [load_schedule_conf] returns and prints for a file. *)
Definition schedule_of (f : file) : list window :=
  match f with
  | Readable text => fst (read_schedule (readlines text) [])
  | _ => []
  end.

Definition schedule_log (schedule_file : string) (f : file) : list event :=
  match f with
  | Missing => [Print (ScheduleNotFound schedule_file)]
  | Unreadable => [Print FailedLoadSchedule]
  | Readable text =>
      if snd (read_schedule (readlines text) [])
      then [Print FailedLoadSchedule] else []
  end.

(** What [load_api_url] returns and prints for a file. *)
Definition api_url_of (f : file) : option string :=
  match f with
  | Readable text => Some (PyStr.strip (hd EmptyString (readlines text)))
  | _ => None
  end.

Definition api_log (api_file : string) (f : file) : list event :=
  match f with
  | Missing => [Print (ApiFileNotFound api_file)]
  | Unreadable => [Print FailedLoadApiUrl]
  | Readable _ => []
  end.

(** What an iteration prints while it loads its configuration. *)
Definition config_log (files : string -> file) : list event :=
  schedule_log SCHEDULE_FILE (files SCHEDULE_FILE)
  ++ api_log API_FILE (files API_FILE).

(** The three kinds of schedule line: without exactly two parts around
    a dash, with two parts that are both times, with two parts that are
    not. *)
Inductive line_kind :=
| Ignored
| Parsed (w : window)
| Unparsable.

Definition classify (line : string) : line_kind :=
  match PyStr.split "-" (PyStr.strip line) with
  | [p0; p1] =>
      match Strptime.strptime_HM p0, Strptime.strptime_HM p1 with
      | Some start_time, Some end_time => Parsed (start_time, end_time)
      | _, _ => Unparsable
      end
  | _ => Ignored
  end.

Definition pair_of (line : string) : option window :=
  match classify line with Parsed w => Some w | _ => None end.

Definition parsable (line : string) : Prop := classify line ≠ Unparsable.

(** The state in which an iteration reaches line 174. *)
Definition resolved (i : tick_input) (s : state) : state :=
  snd (update_period
         (get_current_period (schedule_of (files i SCHEDULE_FILE))
                             (now_time i))
         (now_date i) (logged (config_log (files i)) s)).

(** ** Data of the examples *)

Definition newline : string := String (ascii_of_nat 10) EmptyString.

Definition example_api : string := "http://radio.example/live/playlist.m3u8".

(** [urlparse] and line 20 on the URLs of the examples; "http://[" is
    the one that [urlparse] rejects. *)
Definition rejected_api : string := "http://[".

Definition example_base_url (api_url : string) : option string :=
  if String.eqb api_url rejected_api then None
  else Some "http://radio.example/live/".

Definition example_playlist : string :=
  "seg_001_20240101T0000.aac" ++ newline ++ "seg_001_20240101T0005.aac".

Definition example_content : bytes := [Byte.x41; Byte.x42; Byte.x43].

(** A network that serves [example_playlist] and [example_content], and
    a disk with the given fault. *)
Definition example_world (f : io_fault) : outside :=
  mk_outside (λ _, Some example_playlist) (λ _, DlServed example_content) f.

(** A network whose playlist ends with a reference without underscores. *)
Definition malformed_world : outside :=
  mk_outside (λ _, Some ("seg_001_20240101T0000.aac" ++ newline ++ "last.aac")%string)
             (λ _, DlServed example_content) NoFault.

Definition nine_to_ten : window := (mk_time 9 0 0 0, mk_time 10 0 0 0).
Definition over_midnight : window := (mk_time 23 0 0 0, mk_time 1 0 0 0).
Definition example_day : date := mk_date 2024 1 5.

Definition example_files (schedule api : file) (path : string) : file :=
  if String.eqb path SCHEDULE_FILE then schedule
  else if String.eqb path API_FILE then api
  else Missing.

(** An iteration at 09:30 under the schedule [09:00-10:00]. *)
Definition example_tick (api : file) (o : outside) : tick_input :=
  mk_tick (example_files (Readable ("09:00-10:00" ++ newline)%string) api)
          (mk_time 9 30 0 0) example_day o.

Definition example_api_file : file := Readable (example_api ++ newline)%string.

(** A network that serves a playlist of one reference and [content]. *)
Definition serving (reference : string) (content : bytes) : outside :=
  mk_outside (λ _, Some reference) (λ _, DlServed content) NoFault.

(** A segment reference whose id begins with a NUL character. *)
Definition nul_reference : string :=
  "seg_001_" ++ String (ascii_of_nat 0) "T0005.aac".

(** An iteration under the schedule [23:00-01:00]. *)
Definition night_tick (t : time) (d : date) (o : outside) : tick_input :=
  mk_tick (example_files (Readable ("23:00-01:00" ++ newline)%string)
                         example_api_file)
          t d o.

(** ** Vocabulary of the further properties *)

Definition is_sleep (e : event) : bool :=
  match e with Sleep _ => true | _ => false end.

Definition count_sleeps (evs : list event) : nat :=
  length (List.filter is_sleep evs).

(** A path under the scratch directory. *)
Definition is_scratch (path : string) : Prop :=
  PyStr.startswith "temp/" path = true.

(** The file at [q] has only been extended, if it was there. *)
Definition extended (d d' : gmap string bytes) (q : string) : Prop :=
  ∀ data, d !! q = Some data → ∃ more, d' !! q = Some (data ++ more).

(** A period is never active without a target. *)
Definition target_set (s : state) : Prop :=
  is_Some (current_period s) → is_Some (current_combined_file s).

(** What holds between the states before and after a stretch of the
    run that printed and did [evs]. *)
Definition run_facts (s s' : state) (evs : list event) : Prop :=
  trace s' = trace s ++ evs
  ∧ PROCESSED_FILES s ⊆ PROCESSED_FILES s'
  ∧ size (PROCESSED_FILES s') = size (PROCESSED_FILES s) + count_appends evs
  ∧ (∀ q, ¬ is_scratch q → extended (disk s) (disk s') q).

(** A time of day on a whole minute, as [strptime] with [%H:%M] makes. *)
Definition whole_minute (t : time) : Prop :=
  hour t < 24 ∧ minute t < 60 ∧ second t = 0 ∧ microsecond t = 0.

Definition calendar_date (d : date) : Prop :=
  year d < 100 * 100 ∧ month d < 100 ∧ day d < 100.

(** The two-digit forms from 00:00 to 23:59, checked one by one. *)
Definition parses_back (h m : nat) : bool :=
  bool_decide (Strptime.strptime_HM (PyStr.pad2 h ++ ":" ++ PyStr.pad2 m)
               = Some (mk_time h m 0 0)).

(** The target in use, if a period is active, is one of [P]. *)
Definition target_in (P : string → Prop) (s : state) : Prop :=
  is_Some (current_period s) →
  ∃ p, current_combined_file s = Some p ∧ P p.

(** The last character of a text, if it has one. *)
Fixpoint last_char (s : string) : option ascii :=
  match s with
  | EmptyString => None
  | String c EmptyString => Some c
  | String _ r => last_char r
  end.

(** The bytes that the events [evs] appended to the file at [q], in
    order. *)
Fixpoint appended_data (q : string) (evs : list event) : bytes :=
  match evs with
  | [] => []
  | AppendedTo p data :: rest =>
      (if decide (p = q) then data else []) ++ appended_data q rest
  | _ :: rest => appended_data q rest
  end.

(** The content of a file, empty when there is none. *)
Definition content_of (d : gmap string bytes) (q : string) : bytes :=
  default [] (d !! q).

(** A disk on which a write to the combined file never stops half way. *)
Definition whole_writes (w : outside) : Prop :=
  ∀ n, fault w ≠ CombinedWriteFails n.

Definition content_facts (s s' : state) (evs : list event) : Prop :=
  trace s' = trace s ++ evs
  ∧ ∀ q, ¬ is_scratch q →
         content_of (disk s') q = content_of (disk s) q ++ appended_data q evs.

(** Runs the monad's plumbing, leaving maps and sets alone. *)
Ltac run :=
  cbv beta iota zeta delta
    [bind ret raise modify emit print get_state write_file read_file guard
     file_op fails_with response_content try_except is_request_exception
     set_disk set_processed add_event set_current_period
     set_current_combined_file current_period current_combined_file
     PROCESSED_FILES disk trace].

(** * Properties *)

(** ** The schedule clock *)

Lemma time_compare_refl (a : time) : time_compare a a = Eq.
Proof.
  unfold time_compare. by rewrite !Nat.compare_refl.
Qed.

Lemma time_le_refl (a : time) : time_le a a.
Proof.
  unfold time_le, time_leb. by rewrite time_compare_refl.
Qed.

(** On times of day, the tuple order is the order of the instants. *)
Lemma time_le_instants (a b : time) :
  valid_time a → valid_time b →
  (time_le a b ↔ (to_microseconds a <= to_microseconds b)%Z).
Proof.
  intros (_ & Ha1 & Ha2 & Ha3) (_ & Hb1 & Hb2 & Hb3).
  unfold time_le, time_leb, time_compare, to_microseconds.
  destruct (Nat.compare_spec (hour a) (hour b));
    destruct (Nat.compare_spec (minute a) (minute b));
    destruct (Nat.compare_spec (second a) (second b));
    destruct (Nat.compare_spec (microsecond a) (microsecond b));
    split; intros; try done; try lia.
Qed.

Lemma get_current_period_cons (w : window) (rest : list window) (t : time) :
  get_current_period (w :: rest) t =
  if decide (window_matches t w) then Some w else get_current_period rest t.
Proof.
  destruct w as [s e]. cbn [get_current_period].
  destruct (decide (window_matches t (s, e))) as [H | H];
    unfold window_matches, time_le in H; cbn [fst snd] in H;
    destruct (time_leb s e), (time_leb s t), (time_leb t e); cbn;
    try done; exfalso; intuition congruence.
Qed.

(** C2. [get_current_period] returns the first window of the schedule,
    in list order, that contains the current time, where a normal window
    ([start <= end]) contains [t] iff [start <= t <= end] and a
    wrap-around window ([start > end]) contains it iff [t >= start] or
    [t <= end]; both bounds of a window are inside it; with no matching
    window, and so for the empty schedule, the result is [None]. *)
Theorem get_current_period_first_match (schedule : list window) (t : time) :
  (∀ w, get_current_period schedule t = Some w ↔
        ∃ before after, schedule = before ++ w :: after
                        ∧ window_matches t w
                        ∧ Forall (λ w', ¬ window_matches t w') before)
  ∧ (get_current_period schedule t = None ↔
     Forall (λ w', ¬ window_matches t w') schedule)
  ∧ get_current_period [] t = None
  ∧ (∀ s e, window_matches s (s, e) ∧ window_matches e (s, e))
  ∧ (∀ s e, time_le s e →
            (window_matches t (s, e) ↔ time_le s t ∧ time_le t e))
  ∧ (∀ s e, ¬ time_le s e →
            (window_matches t (s, e) ↔ time_le s t ∨ time_le t e)).
Proof.
  split; [ | split; [ | split; [ done | split; [ | split ] ] ] ].
  - induction schedule as [ | w0 rest IH ]; intros w.
    + split; [ done | ]. intros (before & after & E & _).
      by destruct before.
    + rewrite get_current_period_cons. case_decide as Hm.
      * split.
        -- intros [= <-]. exists [], rest. by repeat split.
        -- intros (before & after & E & Hw & Hb).
           destruct before as [ | b before ]; simplify_eq/=; [ done | ].
           by inversion Hb.
      * rewrite IH. split.
        -- intros (before & after & -> & Hw & Hb).
           exists (w0 :: before), after. repeat split; [ done | ].
           by constructor.
        -- intros (before & after & E & Hw & Hb).
           destruct before as [ | b before ]; simplify_eq/=; [ done | ].
           exists before, after. repeat split; [ done | ].
           by inversion Hb.
  - induction schedule as [ | w0 rest IH ]; [ done | ].
    rewrite get_current_period_cons. case_decide as Hm.
    + split; [ done | ]. intros H. by inversion H.
    + rewrite IH. split; [ by constructor | intros H; by inversion H ].
  - intros s e. unfold window_matches. cbn [fst snd].
    pose proof (time_le_refl s). pose proof (time_le_refl e).
    unfold time_le in *. destruct (time_leb s e); split; intuition congruence.
  - intros s e Hse. unfold window_matches. cbn [fst snd]. tauto.
  - intros s e Hse. unfold window_matches. cbn [fst snd]. tauto.
Qed.

(** ** Paths *)

Lemma has_nul_append (a b : string) :
  has_nul (a ++ b) = has_nul a || has_nul b.
Proof.
  induction a as [ | c a IH ]; [ done | ].
  change (String c a ++ b)%string with (String c (a ++ b)).
  cbn [has_nul]. by rewrite IH, orb_assoc.
Qed.

Lemma has_nul_temp_path id :
  has_nul (temp_path (file_name_of id)) = has_nul id.
Proof.
  unfold temp_path, file_name_of. rewrite !has_nul_append.
  change (has_nul "temp") with false. change (has_nul "/") with false.
  change (has_nul "audio_") with false. change (has_nul ".aac") with false.
  cbn [orb]. by rewrite orb_false_r.
Qed.

Lemma has_nul_pad2 n : has_nul (PyStr.pad2 n) = false.
Proof.
  unfold PyStr.pad2, PyStr.digit_char. cbn [has_nul]. unfold PyStr.code.
  pose proof (Nat.mod_upper_bound (n / 10) 10 ltac:(lia)).
  pose proof (Nat.mod_upper_bound n 10 ltac:(lia)).
  rewrite !nat_ascii_embedding by lia.
  assert (E : ∀ k, (48 + k =? 0) = false)
    by (intros k; apply Nat.eqb_neq; lia).
  by rewrite !E.
Qed.

(** The name of a combined file has no NUL character. *)
Lemma combined_file_name_no_nul today w :
  has_nul (combined_file_name today w) = false.
Proof.
  unfold combined_file_name, strftime_Ymd, strftime_HM, OUTPUT_DIR, PyStr.pad4.
  rewrite !has_nul_append, !has_nul_pad2.
  reflexivity.
Qed.

Section CycleFacts.
Variable base_url_of : string -> option string.

Lemma read_back (d : gmap string bytes) (p t : string) (c : bytes) :
  <[p := default [] (<[t := c]> d !! p)]> (<[t := c]> d) !! t = Some c.
Proof.
  destruct (decide (p = t)) as [-> | Hne].
  - by rewrite !lookup_insert_eq.
  - by rewrite lookup_insert_ne, lookup_insert_eq.
Qed.

(** A text that [urlparse] rejects: the [ValueError] leaves the cycle
    before anything is asked of the network. *)
Lemma cycle_rejected_url w api path s :
  base_url_of api = None →
  fetch_and_combine_last_audio base_url_of w api path s
  = (Raised ValueError, s).
Proof.
  intros Hb. unfold fetch_and_combine_last_audio. by rewrite Hb.
Qed.

Lemma cycle_selected w api path s base text last_url id :
  base_url_of api = Some base →
  playlist_of w api = Some text →
  last_segment text = Some last_url →
  segment_id last_url = Some id →
  file_name_of id ∉ PROCESSED_FILES s →
  fetch_and_combine_last_audio base_url_of w api path s =
  try_except
    (download_and_append w base last_url (file_name_of id) path)
    is_request_exception
    (print (FailedDownload last_url))
    (add_event (HttpGet api) s).
Proof.
  intros Hb Hpl Hlast Hid Hnew.
  unfold fetch_and_combine_last_audio, last_segment, segment_id, timestamp_of in *.
  rewrite Hb.
  unfold try_except at 1. unfold bind at 1. cbn [emit modify].
  rewrite Hpl.
  destruct (List.filter _ _) as [ | u us ] eqn:Hf; [ done | ].
  injection Hlast as <-.
  destruct (nth_error _ 2) as [ field | ] eqn:Hn; [ | done ].
  injection Hid as <-.
  unfold bind at 1. cbn [ret].
  unfold bind at 1. cbn [get_state].
  rewrite decide_False by done.
  set (inner := try_except _ _ _ _).
  destruct inner as [[ [] | e ] s'] eqn:Hin; [ done | ].
  subst inner. unfold try_except in Hin.
  destruct (download_and_append _ _ _ _ _ _) as [[ [] | e' ] s''] eqn:Hd.
  - done.
  - destruct e'; cbn in Hin; simplify_eq; done.
Qed.
End CycleFacts.

Section DownloadFacts.

Lemma download_and_append_done w base last name p content s :
  segment_of w (base ++ last) = DlServed content →
  append_succeeds (fault w) = true →
  has_nul (temp_path name) = false →
  has_nul p = false →
  let d1 := <[temp_path name := content]> (disk s) in
  let d3 := <[p := default [] (d1 !! p) ++ content]> d1 in
  download_and_append w base last name (Some p) s =
  (if fails_with (fault w) RemoveFails then Raised OSError else Ok tt,
   mk_state (current_period s) (current_combined_file s)
            ({[name]} ∪ PROCESSED_FILES s)
            (if fails_with (fault w) RemoveFails then d3
             else delete (temp_path name) d3)
            (trace s ++ [HttpGet (base ++ last); Print (Downloaded name);
                         AppendedTo p content; Print (Appended name p)])).
Proof.
  intros Hdl Hok Hnt Hnp d1 d3. subst d1 d3.
  unfold download_and_append, file_op, guard.
  rewrite Hdl. destruct s as [cp cf ps d tr].
  fold (temp_path name). rewrite !Hnt, Hnp.
  destruct (fault w) eqn:Hf; try done; run;
    rewrite insert_insert_eq, read_back; run;
    rewrite lookup_insert_eq, insert_insert_eq; run;
    rewrite <- !app_assoc; done.
Qed.

(** When the append does not go through, the inner [try] raises:
    nothing is marked, and unless a write to the combined file stopped
    half way, nothing but the scratch file has changed. *)
Lemma download_and_append_undone w base last name path s :
  (∀ content p, segment_of w (base ++ last) = DlServed content →
                path = Some p →
                has_nul (temp_path name) = false →
                has_nul p = false →
                append_succeeds (fault w) = false) →
  ∃ e s', download_and_append w base last name path s = (Raised e, s')
    ∧ current_period s' = current_period s
    ∧ current_combined_file s' = current_combined_file s
    ∧ PROCESSED_FILES s' = PROCESSED_FILES s
    ∧ (trace s' = trace s ++ [HttpGet (base ++ last)]
       ∨ trace s' = trace s ++ [HttpGet (base ++ last);
                                Print (Downloaded name)])
    ∧ (whole_writes w →
       ∀ q, q ≠ temp_path name → disk s' !! q = disk s !! q).
Proof.
  intros Hno. unfold download_and_append, file_op, guard.
  destruct s as [cp cf ps d tr]. fold (temp_path name).
  assert (Hd1 : ∀ c q, q ≠ temp_path name →
                       <[temp_path name := c]> d !! q = d !! q).
  { intros c q Hq. by rewrite lookup_insert_ne. }
  destruct (segment_of w (base ++ last)) as [ | | content ] eqn:Hdl.
  - run. eexists _, _. repeat split; try done; by left.
  - destruct (has_nul (temp_path name)); destruct (fault w); run;
      rewrite <- ?app_assoc, ?insert_insert_eq;
      eexists _, _; (split; [ reflexivity | ]); cbn [app];
      (repeat split; try done); try (by left); try (by right);
      intros _ q Hq; by apply Hd1.
  - destruct path as [ p | ].
    + destruct (has_nul (temp_path name)) eqn:Hnt.
      { destruct (fault w); run; rewrite <- ?app_assoc;
          eexists _, _; (split; [ reflexivity | ]); cbn [app];
          (repeat split; try done); by left. }
      destruct (has_nul p) eqn:Hnp.
      { destruct (fault w); run; rewrite <- ?app_assoc, ?insert_insert_eq;
          eexists _, _; (split; [ reflexivity | ]); cbn [app];
          (repeat split; try done); try (by left); try (by right);
          intros _ q Hq; by apply Hd1. }
      specialize (Hno content p eq_refl eq_refl eq_refl Hnp).
      destruct (fault w) eqn:Hf; try done; run;
        rewrite ?insert_insert_eq, ?read_back; run;
        rewrite <- ?app_assoc;
        eexists _, _; (split; [ reflexivity | ]); cbn [app];
        (repeat split; try done); try (by left); try (by right);
        intros Hw q Hq; try (by destruct (Hw written)); by apply Hd1.
    + destruct (has_nul (temp_path name)); destruct (fault w); run;
        rewrite <- ?app_assoc, ?insert_insert_eq;
        eexists _, _; (split; [ reflexivity | ]); cbn [app];
        (repeat split; try done); try (by left); try (by right);
        intros _ q Hq; by apply Hd1.
Qed.

Lemma download_and_append_open_fails w base last name p content s :
  segment_of w (base ++ last) = DlServed content →
  fault w = CombinedOpenFails →
  has_nul (temp_path name) = false →
  has_nul p = false →
  download_and_append w base last name (Some p) s =
  (Raised OSError,
   mk_state (current_period s) (current_combined_file s) (PROCESSED_FILES s)
            (<[temp_path name := content]> (disk s))
            (trace s ++ [HttpGet (base ++ last); Print (Downloaded name)])).
Proof.
  intros Hdl Hf Hnt Hnp. unfold download_and_append, file_op, guard.
  rewrite Hdl, Hf. destruct s as [cp cf ps d tr]. fold (temp_path name).
  rewrite !Hnt, Hnp.
  run. by rewrite insert_insert_eq, <- !app_assoc.
Qed.

Lemma download_and_append_write_fails w base last name p content n s :
  segment_of w (base ++ last) = DlServed content →
  fault w = CombinedWriteFails n →
  has_nul (temp_path name) = false →
  has_nul p = false →
  let d1 := <[temp_path name := content]> (disk s) in
  download_and_append w base last name (Some p) s =
  (Raised OSError,
   mk_state (current_period s) (current_combined_file s) (PROCESSED_FILES s)
            (<[p := default [] (d1 !! p) ++ take n content]> d1)
            (trace s ++ [HttpGet (base ++ last); Print (Downloaded name)])).
Proof.
  intros Hdl Hf Hnt Hnp d1. subst d1.
  unfold download_and_append, file_op, guard.
  rewrite Hdl, Hf. destruct s as [cp cf ps d tr]. fold (temp_path name).
  rewrite !Hnt, Hnp.
  run. rewrite insert_insert_eq, read_back. run.
  by rewrite lookup_insert_eq, insert_insert_eq, <- !app_assoc.
Qed.

End DownloadFacts.

(** Whatever happens, the first event of the inner [try] is the request
    for the segment. *)
Lemma download_and_append_done_or_not w base last name path s :
  ∃ r s' evs,
    download_and_append w base last name path s = (r, s')
    ∧ trace s' = trace s ++ HttpGet (base ++ last) :: evs.
Proof.
  assert (Hun : (∀ content p, segment_of w (base ++ last) = DlServed content →
                   path = Some p →
                   has_nul (temp_path name) = false →
                   has_nul p = false →
                   append_succeeds (fault w) = false) →
          ∃ r s' evs,
            download_and_append w base last name path s = (r, s')
            ∧ trace s' = trace s ++ HttpGet (base ++ last) :: evs).
  { intros Hno.
    destruct (download_and_append_undone w base last name path s Hno)
      as (e & s' & -> & _ & _ & _ & [ Htr | Htr ] & _); by eauto. }
  destruct (segment_of w (base ++ last)) as [ | | content ] eqn:Hd.
  1, 2: apply Hun; intros; congruence.
  destruct path as [ p | ]; [ | apply Hun; intros; congruence ].
  destruct (has_nul (temp_path name)) eqn:Hnt;
    [ apply Hun; intros; congruence | ].
  destruct (has_nul p) eqn:Hnp; [ apply Hun; intros; congruence | ].
  destruct (append_succeeds (fault w)) eqn:Hf;
    [ | apply Hun; intros; congruence ].
  rewrite (download_and_append_done _ _ _ _ p _ _ Hd Hf Hnt Hnp).
  cbn [trace]. by eauto.
Qed.

Section CycleCases.
Variable base_url_of : string -> option string.

Lemma cycle_playlist_error w api path s base :
  base_url_of api = Some base →
  playlist_of w api = None →
  fetch_and_combine_last_audio base_url_of w api path s =
  (Ok tt, logged [HttpGet api; Print ErrorFetchingPlaylist] s).
Proof.
  intros Hb Hpl. unfold fetch_and_combine_last_audio. rewrite Hb.
  run. rewrite Hpl.
  unfold logged. by rewrite <- app_assoc.
Qed.

Lemma cycle_no_audio w api path s base text :
  base_url_of api = Some base →
  playlist_of w api = Some text →
  last_segment text = None →
  fetch_and_combine_last_audio base_url_of w api path s = (Ok tt, logged [HttpGet api; Print NoAudioUrls] s).
Proof.
  intros Hb Hpl Hlast. unfold fetch_and_combine_last_audio, last_segment in *.
  rewrite Hb.
  run. rewrite Hpl. destruct (List.filter _ _); [ | done ].
  unfold logged. by rewrite <- app_assoc.
Qed.

Lemma cycle_malformed w api path s base text last_url :
  base_url_of api = Some base →
  playlist_of w api = Some text →
  last_segment text = Some last_url →
  segment_id last_url = None →
  fetch_and_combine_last_audio base_url_of w api path s = (Raised IndexError, logged [HttpGet api] s).
Proof.
  intros Hb Hpl Hlast Hid.
  unfold fetch_and_combine_last_audio, last_segment, segment_id,
    timestamp_of in *.
  rewrite Hb.
  run. rewrite Hpl. destruct (List.filter _ _) as [ | u us ]; [ done | ].
  injection Hlast as <-.
  by destruct (nth_error _ 2).
Qed.

Lemma cycle_already_processed w api path s base text last_url id :
  base_url_of api = Some base →
  playlist_of w api = Some text →
  last_segment text = Some last_url →
  segment_id last_url = Some id →
  file_name_of id ∈ PROCESSED_FILES s →
  fetch_and_combine_last_audio base_url_of w api path s =
  (Ok tt, logged [HttpGet api; Print (SkippingProcessed (file_name_of id))] s).
Proof.
  intros Hb Hpl Hlast Hid Hold.
  unfold fetch_and_combine_last_audio, last_segment, segment_id,
    timestamp_of in *.
  rewrite Hb.
  run. rewrite Hpl. destruct (List.filter _ _) as [ | u us ]; [ done | ].
  injection Hlast as <-.
  destruct (nth_error _ 2); [ | done ]. injection Hid as <-.
  rewrite decide_True by done.
  unfold logged. by rewrite <- app_assoc.
Qed.

End CycleCases.

Section CycleOutcome.
Variable base_url_of : string -> option string.

Lemma cycle_appends w api p s base text last_url id content :
  base_url_of api = Some base →
  playlist_of w api = Some text →
  last_segment text = Some last_url →
  segment_id last_url = Some id →
  file_name_of id ∉ PROCESSED_FILES s →
  segment_of w (base ++ last_url) = DlServed content →
  append_succeeds (fault w) = true →
  has_nul id = false →
  has_nul p = false →
  let name := file_name_of id in
  let d1 := <[temp_path name := content]> (disk s) in
  let d3 := <[p := default [] (d1 !! p) ++ content]> d1 in
  fetch_and_combine_last_audio base_url_of w api (Some p) s =
  (if fails_with (fault w) RemoveFails then Raised OSError else Ok tt,
   mk_state (current_period s) (current_combined_file s)
            ({[name]} ∪ PROCESSED_FILES s)
            (if fails_with (fault w) RemoveFails then d3
             else delete (temp_path name) d3)
            (trace s ++ [HttpGet api; HttpGet (base ++ last_url);
                         Print (Downloaded name); AppendedTo p content;
                         Print (Appended name p)])).
Proof.
  intros Hb Hpl Hlast Hid Hnew Hdl Hok Hni Hnp name d1 d3.
  rewrite (cycle_selected _ _ _ _ _ _ _ _ _ Hb Hpl Hlast Hid Hnew).
  unfold try_except.
  rewrite <- has_nul_temp_path in Hni.
  rewrite (download_and_append_done _ _ _ _ p _ _ Hdl Hok Hni Hnp).
  destruct s as [cp cf ps d tr]. cbn [add_event trace disk current_period
    current_combined_file PROCESSED_FILES].
  rewrite <- app_assoc.
  by destruct (fails_with (fault w) RemoveFails).
Qed.

(** What an appending cycle leaves at its target: the file found there,
    or an empty one, followed by the bytes served. *)
Lemma cycle_appends_disk w api p s base text last_url id content :
  base_url_of api = Some base →
  playlist_of w api = Some text →
  last_segment text = Some last_url →
  segment_id last_url = Some id →
  file_name_of id ∉ PROCESSED_FILES s →
  segment_of w (base ++ last_url) = DlServed content →
  append_succeeds (fault w) = true →
  has_nul id = false →
  has_nul p = false →
  let s' := snd (fetch_and_combine_last_audio base_url_of w api (Some p) s) in
  (p ≠ temp_path (file_name_of id) →
   disk s' !! p = Some (default [] (disk s !! p) ++ content))
  ∧ (∀ q, q ≠ p → q ≠ temp_path (file_name_of id) →
          disk s' !! q = disk s !! q).
Proof.
  intros Hb Hpl Hl Hi Hn Hd Hf Hni Hnp s'. subst s'.
  rewrite (cycle_appends _ _ _ _ _ _ _ _ _ Hb Hpl Hl Hi Hn Hd Hf Hni Hnp).
  cbn [snd disk]. split.
  - intros Hne. destruct (fails_with (fault w) RemoveFails).
    + rewrite lookup_insert_eq. by rewrite lookup_insert_ne.
    + rewrite lookup_delete_ne by done. rewrite lookup_insert_eq.
      by rewrite lookup_insert_ne.
  - intros q Hq1 Hq2. destruct (fails_with (fault w) RemoveFails).
    + by rewrite !lookup_insert_ne.
    + rewrite lookup_delete_ne by done. by rewrite !lookup_insert_ne.
Qed.

(** Every cycle that does not append changes neither the set nor the
    remembered period, asks the network for nothing but the playlist and
    the last segment and, unless a write to the combined file stopped
    half way, leaves every file outside the scratch directory as it
    was. *)
Lemma cycle_without_append w api path s base :
  base_url_of api = Some base →
  (∀ text last_url id content p,
      playlist_of w api = Some text →
      last_segment text = Some last_url →
      segment_id last_url = Some id →
      file_name_of id ∉ PROCESSED_FILES s →
      segment_of w (base ++ last_url) = DlServed content →
      path = Some p →
      has_nul id = false →
      has_nul p = false →
      append_succeeds (fault w) = false) →
  ∃ r s' evs,
    fetch_and_combine_last_audio base_url_of w api path s = (r, s')
    ∧ trace s' = trace s ++ HttpGet api :: evs
    ∧ current_period s' = current_period s
    ∧ current_combined_file s' = current_combined_file s
    ∧ PROCESSED_FILES s' = PROCESSED_FILES s
    ∧ count_appends evs = 0
    ∧ (∀ url, In (HttpGet url) evs →
              ∃ text last_url, playlist_of w api = Some text
                               ∧ last_segment text = Some last_url
                               ∧ url = (base ++ last_url)%string)
    ∧ (whole_writes w →
       ∀ q, ¬ is_scratch q → disk s' !! q = disk s !! q).
Proof.
  intros Hb Hno.
  destruct (playlist_of w api) as [ text | ] eqn:Hpl.
  2: { rewrite (cycle_playlist_error _ _ _ _ _ base) by done.
       eexists _, _, [_]. repeat split; try done.
       intros url [ [=] | [] ]. }
  destruct (last_segment text) as [ last_url | ] eqn:Hlast.
  2: { rewrite (cycle_no_audio _ _ _ _ _ base text) by done.
       eexists _, _, [_]. repeat split; try done.
       intros url [ [=] | [] ]. }
  destruct (segment_id last_url) as [ id | ] eqn:Hid.
  2: { rewrite (cycle_malformed _ _ _ _ _ base text last_url) by done.
       eexists _, _, []. repeat split; try done. }
  destruct (decide (file_name_of id ∈ PROCESSED_FILES s)) as [ Hold | Hnew ].
  { rewrite (cycle_already_processed _ _ _ _ _ base text last_url id) by done.
    eexists _, _, [_]. repeat split; try done.
    intros url [ [=] | [] ]. }
  rewrite (cycle_selected _ _ _ _ _ _ _ _ _ Hb Hpl Hlast Hid Hnew).
  unfold try_except.
  destruct (download_and_append_undone w base last_url
              (file_name_of id) path (add_event (HttpGet api) s))
    as (e & s' & -> & Hcp & Hcf & Hps & Htr & Hdk).
  { intros content p Hdl Hp Hnt Hnp. rewrite has_nul_temp_path in Hnt.
    by eapply Hno. }
  assert (Hdk' : whole_writes w →
                 ∀ q, ¬ is_scratch q → disk s' !! q = disk s !! q).
  { intros Hw q Hq. rewrite (Hdk Hw q); [ done | ].
    intros ->. by apply Hq. }
  destruct s' as [cp' cf' ps' d' tr']. cbn in Hcp, Hcf, Hps, Htr, Hdk'.
  destruct e; cbn [is_request_exception]; run;
    destruct Htr as [ -> | -> ]; rewrite <- !app_assoc; cbn [app];
    eexists _, _, _; (split; [ reflexivity | ]);
    (split; [ reflexivity | ]); (repeat split; try done);
    intros url Hin; cbn in Hin;
    repeat (destruct Hin as [ Hin | Hin ];
            [ try discriminate; injection Hin as <-; by eauto | ]);
    done.
Qed.

End CycleOutcome.

Section CycleClaims.
Variable base_url_of : string -> option string.

(** A cycle either appends the last segment once and marks it, or
    appends nothing and marks nothing. *)
Lemma cycle_dichotomy w api (path : option string) s base :
  base_url_of api = Some base →
  (∃ text last_url id p content,
      playlist_of w api = Some text
      ∧ last_segment text = Some last_url
      ∧ segment_id last_url = Some id
      ∧ (file_name_of id ∉ PROCESSED_FILES s)
      ∧ segment_of w (base ++ last_url) = DlServed content
      ∧ path = Some p
      ∧ has_nul id = false
      ∧ has_nul p = false
      ∧ append_succeeds (fault w) = true)
  ∨ (∀ text last_url id content p,
      playlist_of w api = Some text →
      last_segment text = Some last_url →
      segment_id last_url = Some id →
      file_name_of id ∉ PROCESSED_FILES s →
      segment_of w (base ++ last_url) = DlServed content →
      path = Some p →
      has_nul id = false →
      has_nul p = false →
      append_succeeds (fault w) = false).
Proof.
  intros _.
  destruct (playlist_of w api) as [ text | ]; [ | by right ].
  destruct (last_segment text) as [ last_url | ] eqn:Hl;
    [ | right; intros; congruence ].
  destruct (segment_id last_url) as [ id | ] eqn:Hi;
    [ | right; intros; congruence ].
  destruct (decide (file_name_of id ∈ PROCESSED_FILES s));
    [ right; intros; congruence | ].
  destruct (segment_of w (base ++ last_url)) as [ | | c ] eqn:Hd;
    [ right; intros; congruence | right; intros; congruence | ].
  destruct path as [ p | ]; [ | right; intros; congruence ].
  destruct (has_nul id) eqn:Hni; [ right; intros; congruence | ].
  destruct (has_nul p) eqn:Hnp; [ right; intros; congruence | ].
  destruct (append_succeeds (fault w)) eqn:Hf; [ | by right ].
  left. by exists text, last_url, id, p, c.
Qed.

(** C1. In every cycle of [fetch_and_combine_last_audio] the set of
    processed segments gains a member if and only if the bytes of that
    segment were appended to the combined file. Either the cycle appends
    once: the combined file then holds what it held before followed by
    the bytes served for the last segment of the playlist, and the set
    gains exactly that segment. Or it appends nothing and the set is
    unchanged; then, unless a write to the combined file stopped half
    way, every file outside the scratch directory is as it was. In
    particular the set is unchanged when the download is refused or
    breaks off, and when opening or writing the combined file fails. *)
Theorem processed_iff_appended w api (path : option string) s :
  let cycle := fetch_and_combine_last_audio base_url_of in
  let s' := snd (cycle w api path s) in
  (∃ evs, trace s' = trace s ++ evs
     ∧ ((count_appends evs = 1
         ∧ ∃ base text last_url id p content,
             base_url_of api = Some base
             ∧ playlist_of w api = Some text
             ∧ last_segment text = Some last_url
             ∧ segment_id last_url = Some id
             ∧ path = Some p
             ∧ segment_of w (base ++ last_url) = DlServed content
             ∧ append_succeeds (fault w) = true
             ∧ In (AppendedTo p content) evs
             ∧ (p ≠ temp_path (file_name_of id) →
                disk s' !! p = Some (default [] (disk s !! p) ++ content))
             ∧ (file_name_of id ∉ PROCESSED_FILES s)
             ∧ PROCESSED_FILES s' = {[file_name_of id]} ∪ PROCESSED_FILES s)
        ∨ (count_appends evs = 0
           ∧ PROCESSED_FILES s' = PROCESSED_FILES s
           ∧ (whole_writes w →
              ∀ q, ¬ is_scratch q → disk s' !! q = disk s !! q))))
  ∧ PROCESSED_FILES
      (snd (cycle (mk_outside (playlist_of w) (λ _, DlRefused) (fault w))
                  api path s))
    = PROCESSED_FILES s
  ∧ PROCESSED_FILES
      (snd (cycle (mk_outside (playlist_of w) (λ _, DlBroken) (fault w))
                  api path s))
    = PROCESSED_FILES s
  ∧ PROCESSED_FILES
      (snd (cycle (mk_outside (playlist_of w) (segment_of w)
                              CombinedOpenFails) api path s))
    = PROCESSED_FILES s
  ∧ (∀ n, PROCESSED_FILES
            (snd (cycle (mk_outside (playlist_of w) (segment_of w)
                                    (CombinedWriteFails n)) api path s))
          = PROCESSED_FILES s).
Proof.
  intros cycle s'. subst cycle s'.
  assert (Hkeep : ∀ w0,
    (∀ url content, segment_of w0 url = DlServed content →
                    append_succeeds (fault w0) = false) →
    PROCESSED_FILES
      (snd (fetch_and_combine_last_audio base_url_of w0 api path s))
    = PROCESSED_FILES s).
  { intros w0 Hno.
    destruct (base_url_of api) as [ base | ] eqn:Hb;
      [ | by rewrite cycle_rejected_url ].
    destruct (cycle_without_append base_url_of w0 api path s base Hb)
      as (r & s' & evs & -> & _ & _ & _ & Hps & _); [ | done ].
    intros text last_url id content p _ _ _ _ Hd _ _ _. by eapply Hno. }
  split; [ | split; [ | split; [ | split ] ] ].
  - destruct (base_url_of api) as [ base | ] eqn:Hb.
    2: { rewrite cycle_rejected_url by done. cbn [snd].
         exists []. split; [ by rewrite app_nil_r | ]. right. by repeat split. }
    destruct (cycle_dichotomy w api path s base Hb)
      as [ (text & last_url & id & p & c & Hpl & Hl & Hi & Hn & Hd & -> & Hni
            & Hnp & Hf)
         | Hno ].
    + pose proof (cycle_appends_disk base_url_of _ _ _ _ _ _ _ _ _
                    Hb Hpl Hl Hi Hn Hd Hf Hni Hnp) as [Hdk _].
      cbn zeta in Hdk. revert Hdk.
      rewrite (cycle_appends _ _ _ _ _ _ _ _ _ _ Hb Hpl Hl Hi Hn Hd Hf Hni Hnp).
      cbn [snd trace PROCESSED_FILES]. intros Hdk.
      eexists. split; [ done | ].
      left. split; [ done | ].
      exists base, text, last_url, id, p, c. repeat split; try done.
      cbn. tauto.
    + destruct (cycle_without_append base_url_of w api path s base Hb Hno)
        as (r & s' & evs & -> & Htr & _ & _ & Hps & Hc & _ & Hdk).
      cbn [snd]. exists (HttpGet api :: evs). split; [ done | ].
      right. by repeat split.
  - apply Hkeep. intros url content Hd. discriminate Hd.
  - apply Hkeep. intros url content Hd. discriminate Hd.
  - by apply Hkeep.
  - intros n. by apply Hkeep.
Qed.

Lemma count_appends_app evs1 evs2 :
  count_appends (evs1 ++ evs2) = count_appends evs1 + count_appends evs2.
Proof.
  unfold count_appends. by rewrite List.filter_app, length_app.
Qed.

(** C3. A cycle asks the network, besides the playlist, only for the
    last segment reference of the playlist; when that segment is already
    in the processed set the cycle downloads and appends nothing and
    leaves the disk and the set as they are; and two cycles in a row on
    the same playlist text append at most once. When the first cycle
    appends, which it does when the segment is new and its download and
    append succeed, the combined file holds what it held before followed
    by the bytes of the segment, the second cycle is such a no-op, and
    after the two the file still holds those bytes exactly once. *)
Theorem last_segment_appended_once w1 w2 api (path1 path2 : option string)
    s base text last_url id :
  base_url_of api = Some base →
  playlist_of w1 api = Some text →
  playlist_of w2 api = Some text →
  last_segment text = Some last_url →
  segment_id last_url = Some id →
  let cycle := fetch_and_combine_last_audio base_url_of in
  let name := file_name_of id in
  let skip := [HttpGet api; Print (SkippingProcessed name)] in
  let r1 := cycle w1 api path1 s in
  let r2 := cycle w2 api path2 (snd r1) in
  (∃ evs1, trace (snd r1) = trace s ++ HttpGet api :: evs1
     ∧ ∀ url, In (HttpGet url) evs1 →
              url = (base ++ last_url)%string)
  ∧ (name ∈ PROCESSED_FILES s → r1 = (Ok tt, logged skip s))
  ∧ (∃ evs1 evs2,
       trace (snd r1) = trace s ++ evs1
       ∧ trace (snd r2) = trace (snd r1) ++ evs2
       ∧ count_appends (evs1 ++ evs2) <= 1
       ∧ (count_appends evs1 = 1 →
          count_appends (evs1 ++ evs2) = 1
          ∧ r2 = (Ok tt, logged skip (snd r1))))
  ∧ (name ∉ PROCESSED_FILES s →
     ∀ p content,
       path1 = Some p →
       segment_of w1 (base ++ last_url) = DlServed content →
       append_succeeds (fault w1) = true →
       has_nul id = false →
       has_nul p = false →
       p ≠ temp_path name →
       ∃ evs1,
         trace (snd r1) = trace s ++ evs1
         ∧ count_appends evs1 = 1
         ∧ In (AppendedTo p content) evs1
         ∧ disk (snd r1) !! p = Some (default [] (disk s !! p) ++ content)
         ∧ r2 = (Ok tt, logged skip (snd r1))
         ∧ disk (snd r2) !! p = Some (default [] (disk s !! p) ++ content)).
Proof.
  intros Hb Hpl1 Hpl2 Hl Hi cycle name skip r1 r2.
  subst cycle name skip r1 r2.
  split; [ | split; [ | split ] ].
  - destruct (cycle_dichotomy w1 api path1 s base Hb)
      as [ (text0 & last0 & id0 & p & c & Hpl & Hl0 & Hi0 & Hn & Hd & -> & Hni
            & Hnp & Hf)
         | Hno ].
    + simplify_eq.
      rewrite (cycle_appends _ _ _ _ _ _ _ _ _ _ Hb Hpl1 Hl Hi Hn Hd Hf Hni Hnp).
      cbn [snd trace]. eexists. split; [ done | ].
      intros url Hin. cbn in Hin.
      repeat (destruct Hin as [ Hin | Hin ];
              [ try discriminate; by injection Hin as <- | ]).
      done.
    + destruct (cycle_without_append base_url_of w1 api path1 s base Hb Hno)
        as (r & s' & evs & -> & Htr & _ & _ & _ & _ & Hg & _).
      cbn [snd]. exists evs. split; [ done | ].
      intros url Hin. destruct (Hg url Hin) as (t0 & l0 & ? & ? & ->).
      by simplify_eq.
  - intros Hold.
    by rewrite (cycle_already_processed _ _ _ _ _ base text last_url id).
  - destruct (cycle_dichotomy w1 api path1 s base Hb)
      as [ (text0 & last0 & id0 & p & c & Hpl & Hl0 & Hi0 & Hn & Hd & -> & Hni
            & Hnp & Hf)
         | Hno ].
    + simplify_eq.
      rewrite (cycle_appends _ _ _ _ _ _ _ _ _ _ Hb Hpl1 Hl Hi Hn Hd Hf Hni Hnp).
      cbn [snd].
      rewrite (cycle_already_processed _ _ _ _ _ base text last_url id)
        by (try done; cbn; set_solver).
      eexists _, _. split; [ done | ]. split; [ done | ].
      rewrite count_appends_app. cbn. split; [ lia | done ].
    + destruct (cycle_without_append base_url_of w1 api path1 s base Hb Hno)
        as (r & s1 & evs1 & -> & Htr1 & _ & _ & _ & Hc1 & _).
      cbn [snd].
      assert (∃ evs2, trace (snd (fetch_and_combine_last_audio base_url_of
                                    w2 api path2 s1)) = trace s1 ++ evs2
                      ∧ count_appends evs2 <= 1) as (evs2 & Htr2 & Hc2).
      { destruct (cycle_dichotomy w2 api path2 s1 base Hb)
          as [ (t2 & l2 & i2 & p2 & c2 & Hpl & Hl2 & Hi2 & Hn2 & Hd2 & -> & Hni2
                & Hnp2 & Hf2)
             | Hno2 ].
        - rewrite (cycle_appends _ _ _ _ _ _ _ _ _ _ Hb Hpl Hl2 Hi2 Hn2 Hd2 Hf2
                     Hni2 Hnp2).
          cbn [snd trace]. eexists. split; [ done | ]. cbn. lia.
        - destruct (cycle_without_append base_url_of w2 api path2 s1 base Hb
                      Hno2)
            as (r2 & s2 & evs & -> & Htr & _ & _ & _ & Hc & _).
          cbn [snd]. exists (HttpGet api :: evs). split; [ done | ].
          change (count_appends evs <= 1). lia. }
      exists (HttpGet api :: evs1), evs2.
      split; [ done | ]. split; [ done | ].
      rewrite count_appends_app.
      change (count_appends (HttpGet api :: evs1)) with (count_appends evs1).
      split; lia.
  - intros Hn p c -> Hd Hf Hni Hnp Hne.
    pose proof (cycle_appends_disk base_url_of _ _ _ _ _ _ _ _ _
                  Hb Hpl1 Hl Hi Hn Hd Hf Hni Hnp) as [Hdk _].
    cbn zeta in Hdk. specialize (Hdk Hne). revert Hdk.
    rewrite (cycle_appends _ _ _ _ _ _ _ _ _ _ Hb Hpl1 Hl Hi Hn Hd Hf Hni Hnp).
    cbn [snd trace]. intros Hdk.
    rewrite (cycle_already_processed _ _ _ _ _ base text last_url id)
      by (try done; cbn; set_solver).
    eexists. split; [ done | ].
    split; [ done | ]. split; [ cbn; tauto | ].
    split; [ exact Hdk | ]. split; [ done | ]. exact Hdk.
Qed.

End CycleClaims.

(** ** Loading the configuration *)

Lemma logged_nil s : logged [] s = s.
Proof. destruct s. unfold logged. cbn. by rewrite app_nil_r. Qed.

Lemma logged_logged evs1 evs2 s :
  logged evs2 (logged evs1 s) = logged (evs1 ++ evs2) s.
Proof. unfold logged. cbn. by rewrite app_assoc. Qed.

Lemma load_schedule_conf_eq files schedule_file s :
  load_schedule_conf files schedule_file s =
  (Ok (schedule_of (files schedule_file)),
   logged (schedule_log schedule_file (files schedule_file)) s).
Proof.
  unfold load_schedule_conf, schedule_of, schedule_log.
  destruct (files schedule_file) as [ | | text ]; try done.
  destruct (read_schedule _ _) as [schedule [ | ]]; cbn; [ done | ].
  by rewrite logged_nil.
Qed.

Lemma load_api_url_eq files api_file s :
  load_api_url files api_file s =
  (Ok (api_url_of (files api_file)), logged (api_log api_file (files api_file)) s).
Proof.
  unfold load_api_url, api_url_of, api_log.
  destruct (files api_file) as [ | | text ]; try done.
  cbn. by rewrite logged_nil.
Qed.

Lemma read_schedule_step line rest schedule :
  read_schedule (line :: rest) schedule =
  match classify line with
  | Ignored => read_schedule rest schedule
  | Parsed w => read_schedule rest (schedule ++ [w])
  | Unparsable => (schedule, true)
  end.
Proof.
  cbn [read_schedule]. unfold classify.
  destruct (PyStr.split "-" (PyStr.strip line)) as [ | p0 [ | p1 [ | ] ] ];
    try done.
  destruct (Strptime.strptime_HM p0); [ | done ].
  by destruct (Strptime.strptime_HM p1).
Qed.

Lemma read_schedule_parsable lines schedule :
  Forall parsable lines →
  read_schedule lines schedule = (schedule ++ omap pair_of lines, false).
Proof.
  intros Hall. revert schedule.
  induction Hall as [ | line rest Hline _ IH ]; intros schedule.
  - cbn. by rewrite app_nil_r.
  - rewrite read_schedule_step. cbn [omap list_omap]. unfold pair_of at 1.
    unfold parsable in Hline.
    destruct (classify line); [ apply IH | | done ].
    rewrite IH. by rewrite <- app_assoc.
Qed.

Lemma read_schedule_stops before bad after schedule :
  Forall parsable before →
  classify bad = Unparsable →
  read_schedule (before ++ bad :: after) schedule =
  (schedule ++ omap pair_of before, true).
Proof.
  intros Hall Hbad. revert schedule.
  induction Hall as [ | line rest Hline _ IH ]; intros schedule.
  - cbn [app]. rewrite read_schedule_step, Hbad. cbn. by rewrite app_nil_r.
  - cbn [app]. rewrite read_schedule_step. cbn [omap list_omap].
    unfold pair_of at 1. unfold parsable in Hline.
    destruct (classify line); [ apply IH | | done ].
    rewrite IH. by rewrite <- app_assoc.
Qed.

(** C8, as the code has it. [load_schedule_conf] never fails. It skips
    every line that does not split on the dash into exactly two parts.
    When every other line holds two times, the schedule is the pairs of
    those lines in file order. The first line that splits in two but does
    not hold two times ends the loading: the pairs of the lines before it
    are returned, in file order, and a failure is printed. *)
Theorem load_schedule_conf_until_unparsable files schedule_file s :
  let r := load_schedule_conf files schedule_file s in
  (∃ schedule evs, r = (Ok schedule, logged evs s))
  ∧ (∀ text, files schedule_file = Readable text →
       Forall parsable (readlines text) →
       r = (Ok (omap pair_of (readlines text)), s))
  ∧ (∀ text before bad after,
       files schedule_file = Readable text →
       readlines text = before ++ bad :: after →
       Forall parsable before →
       classify bad = Unparsable →
       r = (Ok (omap pair_of before), logged [Print FailedLoadSchedule] s)).
Proof.
  intros r. subst r. rewrite load_schedule_conf_eq. split; [ eauto | split ].
  - intros text -> Hall. unfold schedule_of, schedule_log.
    rewrite read_schedule_parsable by done. cbn. by rewrite logged_nil.
  - intros text before bad after -> Hlines Hall Hbad.
    unfold schedule_of, schedule_log. rewrite Hlines.
    by rewrite read_schedule_stops.
Qed.

(** ** The period manager *)

Lemma update_period_changed period today s :
  period ≠ current_period s →
  update_period period today s =
  (Ok tt,
   match period with
   | Some w =>
       mk_state (Some w) (Some (combined_file_name today w))
                (PROCESSED_FILES s) (disk s)
                (trace s ++ [Print (NewPeriod w (combined_file_name today w))])
   | None =>
       mk_state None (current_combined_file s) (PROCESSED_FILES s) (disk s)
                (trace s)
   end).
Proof.
  intros Hne. unfold update_period. run.
  rewrite decide_True by done. by destruct period.
Qed.

Lemma update_period_same period today s :
  period = current_period s →
  update_period period today s = (Ok tt, s).
Proof.
  intros He. unfold update_period. run.
  by rewrite decide_False by (by intros []).
Qed.

(** Lines 163 to 172 in one statement. *)
Lemma update_period_target period today s :
  let s' := snd (update_period period today s) in
  current_period s' = period
  ∧ (∀ w, period = Some w → period ≠ current_period s →
          current_combined_file s' = Some (combined_file_name today w))
  ∧ (period = current_period s → s' = s)
  ∧ (period = None → current_combined_file s' = current_combined_file s).
Proof.
  intros s'. subst s'.
  destruct (decide (period = current_period s)) as [ He | Hne ].
  - rewrite update_period_same by done. cbn [fst snd].
    repeat split; try done.
  - rewrite update_period_changed by done. cbn [fst snd].
    split; [ by destruct period | ].
    split; [ by intros w -> _ | ]. split; [ done | by intros -> ].
Qed.

(** ** The main loop *)

Section LoopFacts.
Variable base_url_of : string -> option string.

Lemma cycle_keeps_period w api path s :
  let s' := snd (fetch_and_combine_last_audio base_url_of w api path s) in
  current_period s' = current_period s
  ∧ current_combined_file s' = current_combined_file s.
Proof.
  destruct (base_url_of api) as [ base | ] eqn:Hb;
    [ | by rewrite cycle_rejected_url ].
  destruct (cycle_dichotomy base_url_of w api path s base Hb)
    as [ (text & last_url & id & p & c & Hpl & Hl & Hi & Hn & Hd & -> & Hni
          & Hnp & Hf)
       | Hno ].
  - by rewrite (cycle_appends _ _ _ _ _ _ _ _ _ _ Hb Hpl Hl Hi Hn Hd Hf Hni Hnp).
  - destruct (cycle_without_append base_url_of w api path s base Hb Hno)
      as (r & s' & evs & -> & _ & Hcp & Hcf & _).
    by cbn.
Qed.

Lemma current_period_resolved i s :
  current_period (resolved i s) =
  get_current_period (schedule_of (files i SCHEDULE_FILE)) (now_time i).
Proof.
  unfold resolved.
  destruct (decide (get_current_period (schedule_of (files i SCHEDULE_FILE))
                      (now_time i)
                    = current_period (logged (config_log (files i)) s)))
    as [ He | Hne ].
  - by rewrite update_period_same.
  - rewrite update_period_changed by done. cbn [snd].
    by destruct (get_current_period _ _).
Qed.

Lemma iteration_eq i s :
  iteration base_url_of i s =
  if falsy (api_url_of (files i API_FILE)) then
    (Ok tt, logged (config_log (files i) ++ [Print NoValidApiUrl; Sleep 10]) s)
  else
    match current_period (resolved i s) with
    | Some _ =>
        (fetch_and_combine_last_audio base_url_of (world i)
           (default EmptyString (api_url_of (files i API_FILE)))
           (current_combined_file (resolved i s)) ;;
         emit (Sleep 10)) (resolved i s)
    | None =>
        (Ok tt, logged [Print NoActivePeriod; Sleep 10] (resolved i s))
    end.
Proof.
  unfold iteration. unfold bind at 1. rewrite load_schedule_conf_eq.
  unfold bind at 1. rewrite load_api_url_eq. rewrite logged_logged.
  fold (config_log (files i)).
  destruct (falsy _).
  - run. unfold logged. cbn. by rewrite <- !app_assoc.
  - unfold bind at 1. unfold resolved.
    destruct (update_period _ _ _) as [[ [] | e ] s3] eqn:Hu.
    + cbn [snd]. unfold bind at 1. unfold bind at 1. cbn [get_state].
      destruct (current_period s3); [ done | ].
      run. unfold logged. cbn. by rewrite <- !app_assoc.
    + exfalso. revert Hu.
      destruct (decide (get_current_period
                          (schedule_of (files i SCHEDULE_FILE)) (now_time i)
                        = current_period (logged (config_log (files i)) s))).
      * by rewrite update_period_same.
      * by rewrite update_period_changed.
Qed.

(** An iteration that raises ends the loop: nothing after it runs. *)
Lemma main_loop_stops i rest s e s' :
  iteration base_url_of i s = (Raised e, s') →
  main_loop base_url_of (i :: rest) s = (Raised e, s').
Proof.
  intros Hi. cbn [main_loop]. unfold bind. by rewrite Hi.
Qed.

(** An exception of the cycle is an exception of its iteration. *)
Lemma iteration_raises i s api e s' :
  api_url_of (files i API_FILE) = Some api →
  falsy (Some api) = false →
  is_Some (current_period (resolved i s)) →
  fetch_and_combine_last_audio base_url_of (world i) api
    (current_combined_file (resolved i s)) (resolved i s) = (Raised e, s') →
  iteration base_url_of i s = (Raised e, s').
Proof.
  intros Hu Hf [w Hw] Hc. rewrite iteration_eq, Hu, Hf, Hw.
  change (default EmptyString (Some api)) with api.
  unfold bind. by rewrite Hc.
Qed.

End LoopFacts.

Section LoopClaims.
Variable base_url_of : string -> option string.

Lemma segment_id_none last_url :
  length (PyStr.split "_" last_url) < 3 ↔ segment_id last_url = None.
Proof.
  unfold segment_id.
  destruct (nth_error (PyStr.split "_" last_url) 2) as [ field | ] eqn:Hn.
  - split; [ | done ]. intros Hlen.
    assert (nth_error (PyStr.split "_" last_url) 2 ≠ None) as Hs
      by (by rewrite Hn).
    apply nth_error_Some in Hs. lia.
  - split; [ done | ]. intros _. apply nth_error_None in Hn. lia.
Qed.

(** C5, as the code has it. When the last segment reference of the
    playlist, fetched at a URL that [urlparse] accepts, has fewer than
    three fields between underscores, taking
    the third raises [IndexError] before anything is downloaded,
    appended or marked. The cycle does not catch it (it catches only
    [requests.RequestException]): the error leaves the cycle, and the
    main loop, which has no handler, ends with it. *)
Theorem malformed_reference_raises w api (path : option string) s
    base text last_url :
  base_url_of api = Some base →
  playlist_of w api = Some text →
  last_segment text = Some last_url →
  length (PyStr.split "_" last_url) < 3 →
  fetch_and_combine_last_audio base_url_of w api path s =
  (Raised IndexError, logged [HttpGet api] s)
  ∧ (∀ i rest s0,
       world i = w →
       api_url_of (files i API_FILE) = Some api →
       falsy (Some api) = false →
       resolved i s0 = s →
       is_Some (current_period s) →
       current_combined_file s = path →
       main_loop base_url_of (i :: rest) s0 =
       (Raised IndexError, logged [HttpGet api] s)).
Proof.
  intros Hb Hpl Hl Hlen. apply segment_id_none in Hlen.
  pose proof (cycle_malformed base_url_of w api path s base text last_url
                Hb Hpl Hl Hlen) as Hc.
  split; [ done | ].
  intros i rest s0 <- Hu Hf <- Hw <-.
  apply main_loop_stops. by apply (iteration_raises _ _ _ api).
Qed.

(** C4, as the code has it. When the last segment is new, served and
    staged (the URL is one that [urlparse] accepts and neither path has
    a NUL character, which [open] refuses with a [ValueError]), but
    opening or writing the combined file fails, the segment is not
    marked, so that the next cycle on the same playlist asks for it
    again. The failure is an [OSError]: the cycle catches only
    [requests.RequestException], prints nothing about it and lets it
    through, and the main loop, which has no handler, ends with it. *)
Theorem append_failure_raises w api p s base text last_url id content :
  base_url_of api = Some base →
  playlist_of w api = Some text →
  last_segment text = Some last_url →
  segment_id last_url = Some id →
  file_name_of id ∉ PROCESSED_FILES s →
  segment_of w (base ++ last_url) = DlServed content →
  has_nul id = false →
  has_nul p = false →
  fault w = CombinedOpenFails ∨ (∃ n, fault w = CombinedWriteFails n) →
  let r := fetch_and_combine_last_audio base_url_of w api (Some p) s in
  fst r = Raised OSError
  ∧ PROCESSED_FILES (snd r) = PROCESSED_FILES s
  ∧ trace (snd r) =
    trace s ++ [HttpGet api; HttpGet (base ++ last_url);
                Print (Downloaded (file_name_of id))]
  ∧ (∀ w2 path2,
       playlist_of w2 api = Some text →
       ∃ evs,
         trace (snd (fetch_and_combine_last_audio base_url_of w2 api path2
                       (snd r))) =
         trace (snd r)
           ++ HttpGet api :: HttpGet (base ++ last_url) :: evs)
  ∧ (∀ i rest s0,
       world i = w →
       api_url_of (files i API_FILE) = Some api →
       falsy (Some api) = false →
       resolved i s0 = s →
       is_Some (current_period s) →
       current_combined_file s = Some p →
       main_loop base_url_of (i :: rest) s0 = (Raised OSError, snd r)).
Proof.
  intros Hb Hpl Hl Hi Hn Hd Hni Hnp Hf r.
  pose proof (has_nul_temp_path id) as Hnt. rewrite Hni in Hnt.
  assert (∃ dsk, r = (Raised OSError,
                      mk_state (current_period s) (current_combined_file s)
                        (PROCESSED_FILES s) dsk
                        (trace s ++ [HttpGet api;
                                     HttpGet (base ++ last_url);
                                     Print (Downloaded (file_name_of id))])))
    as [dsk Hr].
  { subst r. rewrite (cycle_selected _ _ _ _ _ _ _ _ _ Hb Hpl Hl Hi Hn).
    unfold try_except.
    destruct Hf as [ Hf | [n Hf] ].
    - rewrite (download_and_append_open_fails _ _ _ _ _ _ _ Hd Hf Hnt Hnp).
      cbn. rewrite <- app_assoc. by eexists.
    - rewrite (download_and_append_write_fails _ _ _ _ _ _ _ _ Hd Hf Hnt Hnp).
      cbn. rewrite <- app_assoc. by eexists. }
  rewrite Hr. cbn [fst snd PROCESSED_FILES trace].
  split; [ done | ]. split; [ done | ]. split; [ done | ]. split.
  - intros w2 path2 Hpl2.
    set (s1 := mk_state _ _ _ _ _).
    rewrite (cycle_selected _ _ _ _ _ _ _ _ _ Hb Hpl2 Hl Hi) by done.
    unfold try_except.
    destruct (download_and_append_done_or_not w2 base last_url
                (file_name_of id) path2 (add_event (HttpGet api) s1))
      as (r2 & s2 & evs & -> & Htr).
    destruct s2 as [cp2 cf2 ps2 d2 tr2]. subst s1.
    cbn [trace add_event] in Htr. subst tr2.
    destruct r2 as [ [] | e ]; [ | destruct e ]; cbn [is_request_exception];
      run; cbn [snd]; eexists; rewrite <- ?app_assoc; cbn [app];
      reflexivity.
  - intros i rest s0 <- Hu Hfa <- Hw Hp.
    apply main_loop_stops. apply (iteration_raises _ _ _ api); try done.
    rewrite Hp. fold r. rewrite Hr. by rewrite Hp.
Qed.

(** C7 on the code. When the last segment is new, served and staged
    (the URL is one that [urlparse] accepts and neither path has a NUL
    character) but the combined file cannot be opened or written, the
    cycle ends with the scratch file still on disk: [os.remove] is
    reached only after a successful append. *)
Theorem scratch_file_left_after_failed_append w api p s base text last_url id
    content :
  base_url_of api = Some base →
  playlist_of w api = Some text →
  last_segment text = Some last_url →
  segment_id last_url = Some id →
  file_name_of id ∉ PROCESSED_FILES s →
  segment_of w (base ++ last_url) = DlServed content →
  has_nul id = false →
  has_nul p = false →
  fault w = CombinedOpenFails ∨ (∃ n, fault w = CombinedWriteFails n) →
  let r := fetch_and_combine_last_audio base_url_of w api (Some p) s in
  fst r = Raised OSError
  ∧ is_Some (disk (snd r) !! temp_path (file_name_of id))
  ∧ (p ≠ temp_path (file_name_of id) →
     disk (snd r) !! temp_path (file_name_of id) = Some content).
Proof.
  intros Hb Hpl Hl Hi Hn Hd Hni Hnp Hf r. subst r.
  pose proof (has_nul_temp_path id) as Hnt. rewrite Hni in Hnt.
  rewrite (cycle_selected _ _ _ _ _ _ _ _ _ Hb Hpl Hl Hi Hn).
  unfold try_except.
  destruct Hf as [ Hf | [n Hf] ].
  - rewrite (download_and_append_open_fails _ _ _ _ _ _ _ Hd Hf Hnt Hnp).
    cbn. rewrite lookup_insert_eq. by eauto.
  - rewrite (download_and_append_write_fails _ _ _ _ _ _ _ _ Hd Hf Hnt Hnp).
    cbn. split; [ done | ]. split.
    + destruct (decide (p = temp_path (file_name_of id))) as [ -> | Hne ].
      * rewrite lookup_insert_eq. by eauto.
      * rewrite lookup_insert_ne, lookup_insert_eq by done. by eauto.
    + intros Hne. by rewrite lookup_insert_ne, lookup_insert_eq.
Qed.

(** The same happens without any exception leaving the cycle: when the
    body of the response cannot be read, the failure is printed and the
    cycle returns with the scratch file, empty, on disk. *)
Lemma scratch_file_left_after_broken_download w api path s base text
    last_url id :
  base_url_of api = Some base →
  playlist_of w api = Some text →
  last_segment text = Some last_url →
  segment_id last_url = Some id →
  file_name_of id ∉ PROCESSED_FILES s →
  segment_of w (base ++ last_url) = DlBroken →
  has_nul id = false →
  fault w = NoFault →
  let r := fetch_and_combine_last_audio base_url_of w api path s in
  fst r = Ok tt
  ∧ disk (snd r) !! temp_path (file_name_of id) = Some [].
Proof.
  intros Hb Hpl Hl Hi Hn Hd Hni Hf r. subst r.
  pose proof (has_nul_temp_path id) as Hnt. rewrite Hni in Hnt.
  rewrite (cycle_selected _ _ _ _ _ _ _ _ _ Hb Hpl Hl Hi Hn).
  unfold try_except, download_and_append, file_op, guard. rewrite Hd, Hf.
  fold (temp_path (file_name_of id)). rewrite !Hnt.
  destruct s as [cp cf ps d tr].
  run. cbn [fst snd]. by rewrite lookup_insert_eq.
Qed.

Lemma cycle_trace w api path s base :
  base_url_of api = Some base →
  ∃ evs, trace (snd (fetch_and_combine_last_audio base_url_of w api path s))
         = trace s ++ HttpGet api :: evs.
Proof.
  intros Hb.
  destruct (cycle_dichotomy base_url_of w api path s base Hb)
    as [ (text & last_url & id & p & c & Hpl & Hl & Hi & Hn & Hd & -> & Hni
          & Hnp & Hf)
       | Hno ].
  - rewrite (cycle_appends _ _ _ _ _ _ _ _ _ _ Hb Hpl Hl Hi Hn Hd Hf Hni Hnp).
    cbn. by eexists.
  - destruct (cycle_without_append base_url_of w api path s base Hb Hno)
      as (r & s' & evs & -> & Htr & _).
    cbn. by eexists.
Qed.

Lemma cycle_then_sleep w api path s :
  let s' := snd ((fetch_and_combine_last_audio base_url_of w api path ;;
                  emit (Sleep 10)) s) in
  current_period s' = current_period s
  ∧ current_combined_file s' = current_combined_file s
  ∧ (is_Some (base_url_of api) →
     ∃ evs, trace s' = trace s ++ HttpGet api :: evs).
Proof.
  pose proof (cycle_keeps_period base_url_of w api path s) as [Hcp Hcf].
  assert (Htr : is_Some (base_url_of api) →
                ∃ evs, trace (snd (fetch_and_combine_last_audio base_url_of
                                     w api path s))
                       = trace s ++ HttpGet api :: evs).
  { intros [base Hb]. by apply (cycle_trace w api path s base). }
  unfold bind.
  destruct (fetch_and_combine_last_audio base_url_of w api path s)
    as [[ [] | e ] s1]; cbn in *.
  - split; [ done | ]. split; [ done | ]. intros Hb.
    destruct (Htr Hb) as [evs ->]. rewrite <- app_assoc. by eauto.
  - by eauto.
Qed.

Lemma iteration_globals i s :
  falsy (api_url_of (files i API_FILE)) = false →
  current_period (snd (iteration base_url_of i s))
  = current_period (resolved i s)
  ∧ current_combined_file (snd (iteration base_url_of i s))
    = current_combined_file (resolved i s).
Proof.
  intros Hf. rewrite iteration_eq, Hf.
  destruct (current_period (resolved i s)) as [ w | ] eqn:Hw.
  - destruct (cycle_then_sleep (world i)
                (default EmptyString (api_url_of (files i API_FILE)))
                (current_combined_file (resolved i s)) (resolved i s))
      as (Hp & Hc & _).
    by rewrite Hp, Hc.
  - by cbn.
Qed.

(** C6, as the code has it. At every tick that reads an API URL, the
    remembered period becomes the one just resolved. When it differs
    from the period remembered before and is a window, the target becomes
    [sound/combined_<YYYYMMDD>_<HHMM>_<HHMM>.aac], from the date of that
    moment and the bounds of the new window; when it is unchanged, or
    when no window is active any more, the target keeps its value. *)
Theorem target_recomputed_on_new_window i s :
  let period :=
    get_current_period (schedule_of (files i SCHEDULE_FILE)) (now_time i) in
  let s' := snd (iteration base_url_of i s) in
  falsy (api_url_of (files i API_FILE)) = false →
  current_period s' = period
  ∧ (∀ w, period = Some w → period ≠ current_period s →
          current_combined_file s'
          = Some (combined_file_name (now_date i) w))
  ∧ (period = current_period s →
     current_combined_file s' = current_combined_file s)
  ∧ (period = None → current_combined_file s' = current_combined_file s)
  ∧ (∀ d start end_,
       combined_file_name d (start, end_) =
       ("sound/combined_"
          ++ PyStr.pad4 (year d) ++ PyStr.pad2 (month d) ++ PyStr.pad2 (day d)
          ++ "_" ++ PyStr.pad2 (hour start) ++ PyStr.pad2 (minute start)
          ++ "_" ++ PyStr.pad2 (hour end_) ++ PyStr.pad2 (minute end_)
          ++ ".aac")%string).
Proof.
  intros period s' Hf. subst s'.
  destruct (iteration_globals i s Hf) as [-> ->].
  unfold resolved. fold period.
  destruct (update_period_target period (now_date i)
              (logged (config_log (files i)) s)) as (H1 & H2 & H3 & H4).
  cbn [logged current_period current_combined_file] in H2, H3, H4.
  split; [ done | ]. split; [ done | ].
  split; [ intros He; by rewrite (H3 He) | ]. split; done.
Qed.

(** C9, as the code has it. Every iteration reads the schedule file
    and the API file anew. When the URL it reads is not empty, the
    remembered period becomes the window that the schedule just read
    gives for the current time, and, when a window is active and
    [urlparse] accepts the URL, the playlist is asked for at the URL
    just read. When the API file is missing, unreadable or empty, the
    iteration prints so, sleeps and goes on to the next one: the period
    is not recomputed and the globals keep their values. *)
Theorem period_recomputed_when_url_read i s :
  let url := api_url_of (files i API_FILE) in
  let schedule := schedule_of (files i SCHEDULE_FILE) in
  let r := iteration base_url_of i s in
  (∃ evs, trace (snd r) = trace s ++ config_log (files i) ++ evs)
  ∧ (falsy url = false →
     current_period (snd r) = get_current_period schedule (now_time i))
  ∧ (falsy url = false →
     is_Some (get_current_period schedule (now_time i)) →
     is_Some (base_url_of (default EmptyString url)) →
     ∃ evs, trace (snd r) =
            trace (resolved i s) ++ HttpGet (default EmptyString url) :: evs)
  ∧ (falsy url = true →
     r = (Ok tt,
          logged (config_log (files i) ++ [Print NoValidApiUrl; Sleep 10]) s)).
Proof.
  intros url schedule r. subst url schedule r.
  rewrite iteration_eq.
  assert (Hres : ∃ evs, trace (resolved i s)
                        = trace s ++ config_log (files i) ++ evs).
  { unfold resolved.
    destruct (decide (get_current_period
                        (schedule_of (files i SCHEDULE_FILE)) (now_time i)
                      = current_period (logged (config_log (files i)) s))).
    - rewrite update_period_same by done. cbn [snd logged trace].
      exists []. by rewrite app_nil_r.
    - rewrite update_period_changed by done. cbn [snd].
      destruct (get_current_period _ _); cbn [logged trace].
      + eexists. by rewrite <- app_assoc.
      + exists []. by rewrite app_nil_r. }
  destruct Hres as [evs0 Hres].
  pose proof (current_period_resolved i s) as Hcp.
  destruct (falsy (api_url_of (files i API_FILE))) eqn:Hf.
  - split; [ | done ]. cbn [snd logged trace]. by eexists.
  - destruct (current_period (resolved i s)) as [ w | ] eqn:Hw.
    + destruct (cycle_then_sleep (world i)
                  (default EmptyString (api_url_of (files i API_FILE)))
                  (current_combined_file (resolved i s)) (resolved i s))
        as (Hp & _ & Htr).
      assert (Hpre : ∃ evs, trace (snd ((fetch_and_combine_last_audio
                      base_url_of (world i)
                      (default EmptyString (api_url_of (files i API_FILE)))
                      (current_combined_file (resolved i s)) ;;
                      emit (Sleep 10)) (resolved i s)))
                    = trace (resolved i s) ++ evs).
      { destruct (base_url_of (default EmptyString
                                 (api_url_of (files i API_FILE))))
          as [ base | ] eqn:Hb.
        - destruct Htr as [evs Htr]; [ done | ]. by eauto.
        - unfold bind. rewrite cycle_rejected_url by done. cbn [snd].
          exists []. by rewrite app_nil_r. }
      split; [ | split; [ | split; [ | done ] ] ].
      * destruct Hpre as [evs ->]. rewrite Hres. eexists.
        by rewrite <- !app_assoc.
      * intros _. by rewrite Hp, Hw.
      * intros _ _ Hb. exact (Htr Hb).
    + cbn [snd]. split; [ | split; [ | split; [ | done ] ] ].
      * cbn [logged trace]. rewrite Hres. eexists.
        by rewrite <- !app_assoc.
      * intros _. cbn [logged current_period]. congruence.
      * intros _ [w Hw'] _. congruence.
Qed.

Lemma combined_file_not_scratch today w name :
  combined_file_name today w ≠ temp_path name.
Proof. by intros [=]. Qed.

End LoopClaims.

(** * The scenarios of the specification and the claims at concrete inputs *)

Example scenario_last_reference :
  last_segment example_playlist = Some "seg_001_20240101T0005.aac"
  ∧ segment_id "seg_001_20240101T0005.aac" = Some "20240101T0005"
  ∧ file_name_of "20240101T0005" = "audio_20240101T0005.aac".
Proof. by vm_compute. Qed.

Example scenario_target :
  get_current_period [nine_to_ten] (mk_time 9 30 0 0) = Some nine_to_ten
  ∧ combined_file_name example_day nine_to_ten
    = "sound/combined_20240105_0900_1000.aac".
Proof. by vm_compute. Qed.

Example scenario_wrap_around :
  get_current_period [over_midnight] (mk_time 0 15 0 0) = Some over_midnight
  ∧ get_current_period [over_midnight] (mk_time 12 0 0 0) = None.
Proof. by vm_compute. Qed.

Example scenario_schedule_line :
  schedule_of (Readable ("09:00-10:00" ++ newline ++ "23:00-01:00")%string)
  = [nine_to_ten; over_midnight].
Proof. by vm_compute. Qed.

(** C4 as stated fails here: the combined file cannot be opened, the
    cycle raises [OSError], nothing is printed about it, and a loop of
    two iterations ends in the first one. *)
Lemma append_failure_ends_loop :
  let i := example_tick example_api_file (example_world CombinedOpenFails) in
  let r := main_loop example_base_url [i; i] initial_state in
  fst r = Raised OSError
  ∧ trace (snd r) =
    [Print (NewPeriod nine_to_ten "sound/combined_20240105_0900_1000.aac");
     HttpGet example_api;
     HttpGet "http://radio.example/live/seg_001_20240101T0005.aac";
     Print (Downloaded "audio_20240101T0005.aac")].
Proof. by vm_compute. Qed.

(** C5 as stated fails here: the last reference has no underscore, the
    cycle raises [IndexError] instead of skipping, and a loop of two
    iterations ends in the first one. *)
Lemma malformed_reference_ends_loop :
  let i := example_tick example_api_file malformed_world in
  let r := main_loop example_base_url [i; i] initial_state in
  fst r = Raised IndexError
  ∧ trace (snd r) =
    [Print (NewPeriod nine_to_ten "sound/combined_20240105_0900_1000.aac");
     HttpGet example_api].
Proof. by vm_compute. Qed.

(** C6 as stated fails here: at 10:30 the window has closed, so the
    resolved period differs from the remembered one, and the target is
    not recomputed: it still names the closed window and the day it
    opened. *)
Lemma target_kept_when_window_closes :
  let i := mk_tick (example_files (Readable ("09:00-10:00" ++ newline)%string)
                                  example_api_file)
                   (mk_time 10 30 0 0) (mk_date 2024 1 6)
                   (example_world NoFault) in
  let s := mk_state (Some nine_to_ten)
                    (Some "sound/combined_20240105_0900_1000.aac"%string)
                    ∅ ∅ [] in
  let s' := snd (iteration example_base_url i s) in
  get_current_period (schedule_of (files i SCHEDULE_FILE)) (now_time i) = None
  ∧ current_period s = Some nine_to_ten
  ∧ current_period s' = None
  ∧ current_combined_file s'
    = Some "sound/combined_20240105_0900_1000.aac"%string.
Proof. by vm_compute. Qed.

(** C8 as stated fails here: the second line is well formed, but the
    first splits in two without holding times, and the schedule comes
    back empty. *)
Lemma well_formed_line_lost_after_unparsable :
  let text := ("ab-cd" ++ newline ++ "09:00-10:00" ++ newline)%string in
  readlines text = [("ab-cd" ++ newline)%string;
                    ("09:00-10:00" ++ newline)%string]
  ∧ pair_of ("09:00-10:00" ++ newline)%string = Some nine_to_ten
  ∧ load_schedule_conf (example_files (Readable text) Missing) SCHEDULE_FILE
      initial_state
    = (Ok [], logged [Print FailedLoadSchedule] initial_state).
Proof. by vm_compute. Qed.

(** C9 as stated fails here: the API file is missing, the schedule has
    a window for the current time, and the remembered period stays
    [None]. *)
Lemma period_not_recomputed_without_url :
  let i := example_tick Missing (example_world NoFault) in
  let r := iteration example_base_url i initial_state in
  get_current_period (schedule_of (files i SCHEDULE_FILE)) (now_time i)
  = Some nine_to_ten
  ∧ current_period (snd r) = None
  ∧ trace (snd r) = [Print (ApiFileNotFound API_FILE); Print NoValidApiUrl;
                     Sleep 10].
Proof. by vm_compute. Qed.

Lemma resolved_processed i s :
  PROCESSED_FILES (resolved i s) = PROCESSED_FILES s.
Proof.
  unfold resolved.
  destruct (decide (get_current_period (schedule_of (files i SCHEDULE_FILE))
                      (now_time i)
                    = current_period (logged (config_log (files i)) s))).
  - by rewrite update_period_same.
  - rewrite update_period_changed by done.
    by destruct (get_current_period _ _).
Qed.

Lemma get_current_period_first_match_witness :
  window_matches (mk_time 0 15 0 0) over_midnight
  ∧ get_current_period [nine_to_ten; over_midnight] (mk_time 0 15 0 0)
    = Some over_midnight.
Proof.
  assert (Hin : window_matches (mk_time 0 15 0 0) over_midnight).
  { right. split; [ intros H; vm_compute in H; discriminate H | ].
    right. reflexivity. }
  assert (Hout : ¬ window_matches (mk_time 0 15 0 0) nine_to_ten).
  { intros [ (_ & H & _) | (H & _) ].
    - vm_compute in H. discriminate H.
    - apply H. reflexivity. }
  split; [ exact Hin | ].
  apply (proj1 (get_current_period_first_match
                  [nine_to_ten; over_midnight] (mk_time 0 15 0 0))).
  exists [nine_to_ten], []. split; [ reflexivity | ].
  split; [ exact Hin | ]. constructor; [ exact Hout | constructor ].
Defined.

Lemma last_segment_appended_once_witness :
  let cycle := fetch_and_combine_last_audio example_base_url in
  let w := example_world NoFault in
  let target := "sound/c.aac"%string in
  let r1 := cycle w example_api (Some target) initial_state in
  let r2 := cycle w example_api (Some target) (snd r1) in
  example_base_url example_api = Some "http://radio.example/live/"%string
  ∧ playlist_of w example_api = Some example_playlist
  ∧ last_segment example_playlist = Some "seg_001_20240101T0005.aac"%string
  ∧ segment_id "seg_001_20240101T0005.aac" = Some "20240101T0005"%string
  ∧ (file_name_of "20240101T0005" ∉ PROCESSED_FILES initial_state)
  ∧ has_nul "20240101T0005" = false
  ∧ has_nul target = false
  ∧ target ≠ temp_path (file_name_of "20240101T0005")
  ∧ ∃ evs1,
      trace (snd r1) = trace initial_state ++ evs1
      ∧ count_appends evs1 = 1
      ∧ In (AppendedTo target example_content) evs1
      ∧ disk (snd r1) !! target
        = Some (default [] (disk initial_state !! target) ++ example_content)
      ∧ r2 = (Ok tt,
              logged [HttpGet example_api;
                      Print (SkippingProcessed
                               (file_name_of "20240101T0005"))]
                     (snd r1))
      ∧ disk (snd r2) !! target
        = Some (default [] (disk initial_state !! target) ++ example_content).
Proof.
  intros cycle w target r1 r2.
  assert (Hnew : file_name_of "20240101T0005" ∉ PROCESSED_FILES initial_state)
    by apply not_elem_of_empty.
  assert (Hne : target ≠ temp_path (file_name_of "20240101T0005"))
    by (intros H; discriminate H).
  split; [ reflexivity | ]. split; [ reflexivity | ].
  split; [ reflexivity | ]. split; [ reflexivity | ].
  split; [ exact Hnew | ]. split; [ reflexivity | ].
  split; [ reflexivity | ]. split; [ exact Hne | ].
  apply (proj2 (proj2 (proj2
           (last_segment_appended_once example_base_url w w example_api
              (Some target) (Some target)
              initial_state "http://radio.example/live/" example_playlist
              "seg_001_20240101T0005.aac" "20240101T0005"
              eq_refl eq_refl eq_refl eq_refl eq_refl)))
           Hnew target example_content eq_refl eq_refl eq_refl eq_refl
           eq_refl Hne).
Defined.

Lemma append_failure_raises_witness :
  let w := example_world CombinedOpenFails in
  let i := example_tick example_api_file w in
  let p := "sound/combined_20240105_0900_1000.aac"%string in
  let s := resolved i initial_state in
  let r := fetch_and_combine_last_audio example_base_url w example_api
             (Some p) s in
  (file_name_of "20240101T0005" ∉ PROCESSED_FILES s)
  ∧ fault w = CombinedOpenFails
  ∧ fst r = Raised OSError
  ∧ PROCESSED_FILES (snd r) = PROCESSED_FILES s
  ∧ main_loop example_base_url [i; i] initial_state = (Raised OSError, snd r).
Proof.
  intros w i p s r.
  assert (Hnew : file_name_of "20240101T0005" ∉ PROCESSED_FILES s).
  { subst s. rewrite resolved_processed. apply not_elem_of_empty. }
  split; [ exact Hnew | ]. split; [ reflexivity | ].
  destruct (append_failure_raises example_base_url w example_api p s
              "http://radio.example/live/"
              example_playlist "seg_001_20240101T0005.aac" "20240101T0005"
              example_content eq_refl eq_refl eq_refl eq_refl Hnew eq_refl
              eq_refl eq_refl (or_introl eq_refl))
    as (H1 & H2 & _ & _ & H5).
  split; [ exact H1 | ]. split; [ exact H2 | ].
  apply (H5 i [i] initial_state eq_refl eq_refl eq_refl eq_refl).
  - exists nine_to_ten. reflexivity.
  - reflexivity.
Defined.

Lemma malformed_reference_raises_witness :
  let i := example_tick example_api_file malformed_world in
  let s := resolved i initial_state in
  length (PyStr.split "_" "last.aac") < 3
  ∧ fetch_and_combine_last_audio example_base_url malformed_world example_api
      (current_combined_file s) s
    = (Raised IndexError, logged [HttpGet example_api] s)
  ∧ main_loop example_base_url [i; i] initial_state
    = (Raised IndexError, logged [HttpGet example_api] s).
Proof.
  intros i s.
  assert (Hlen : length (PyStr.split "_" "last.aac") < 3)
    by (vm_compute; lia).
  split; [ exact Hlen | ].
  destruct (malformed_reference_raises example_base_url malformed_world
              example_api (current_combined_file s) s
              "http://radio.example/live/"
              ("seg_001_20240101T0000.aac" ++ newline ++ "last.aac")%string
              "last.aac" eq_refl eq_refl eq_refl Hlen)
    as (H1 & H2).
  split; [ exact H1 | ].
  apply (H2 i [i] initial_state eq_refl eq_refl eq_refl eq_refl).
  - exists nine_to_ten. reflexivity.
  - reflexivity.
Defined.

Lemma target_recomputed_on_new_window_witness :
  let i := example_tick example_api_file (example_world NoFault) in
  falsy (api_url_of (files i API_FILE)) = false
  ∧ Some nine_to_ten ≠ current_period initial_state
  ∧ current_combined_file (snd (iteration example_base_url i initial_state))
    = Some "sound/combined_20240105_0900_1000.aac"%string.
Proof.
  intros i.
  assert (Hne : Some nine_to_ten ≠ current_period initial_state)
    by (intros H; discriminate H).
  split; [ reflexivity | ]. split; [ exact Hne | ].
  apply (proj1 (proj2
           (target_recomputed_on_new_window example_base_url i initial_state
              eq_refl))
           nine_to_ten eq_refl Hne).
Defined.

Lemma scratch_file_left_after_failed_append_witness :
  let w := example_world CombinedOpenFails in
  let r := fetch_and_combine_last_audio example_base_url w example_api
             (Some "sound/c.aac"%string) initial_state in
  (file_name_of "20240101T0005" ∉ PROCESSED_FILES initial_state)
  ∧ fst r = Raised OSError
  ∧ disk (snd r) !! "temp/audio_20240101T0005.aac"%string
    = Some example_content.
Proof.
  intros w r.
  assert (Hnew : file_name_of "20240101T0005" ∉ PROCESSED_FILES initial_state)
    by apply not_elem_of_empty.
  split; [ exact Hnew | ].
  destruct (scratch_file_left_after_failed_append example_base_url w
              example_api "sound/c.aac" initial_state
              "http://radio.example/live/" example_playlist
              "seg_001_20240101T0005.aac" "20240101T0005" example_content
              eq_refl eq_refl eq_refl eq_refl Hnew eq_refl eq_refl eq_refl
              (or_introl eq_refl))
    as (H1 & _ & H3).
  split; [ exact H1 | ].
  apply H3. intros H. discriminate H.
Defined.

Lemma load_schedule_conf_until_unparsable_witness :
  let text := ("09:00-10:00" ++ newline ++ "ab-cd" ++ newline
               ++ "23:00-01:00" ++ newline)%string in
  let before := [("09:00-10:00" ++ newline)%string] in
  let bad := ("ab-cd" ++ newline)%string in
  let after := [("23:00-01:00" ++ newline)%string] in
  readlines text = before ++ bad :: after
  ∧ Forall parsable before
  ∧ classify bad = Unparsable
  ∧ load_schedule_conf (example_files (Readable text) Missing) SCHEDULE_FILE
      initial_state
    = (Ok [nine_to_ten], logged [Print FailedLoadSchedule] initial_state).
Proof.
  intros text before bad after.
  assert (Hb : Forall parsable before).
  { constructor; [ | constructor ].
    intros H. vm_compute in H. discriminate H. }
  split; [ reflexivity | ]. split; [ exact Hb | ]. split; [ reflexivity | ].
  apply (proj2 (proj2
           (load_schedule_conf_until_unparsable
              (example_files (Readable text) Missing) SCHEDULE_FILE
              initial_state))
           text before bad after eq_refl eq_refl Hb eq_refl).
Defined.

Lemma period_recomputed_when_url_read_witness :
  let i := example_tick example_api_file (example_world NoFault) in
  falsy (api_url_of (files i API_FILE)) = false
  ∧ current_period (snd (iteration example_base_url i initial_state))
    = Some nine_to_ten.
Proof.
  intros i. split; [ reflexivity | ].
  apply (proj1 (proj2
           (period_recomputed_when_url_read example_base_url i initial_state))
           eq_refl).
Defined.

(** * Further properties of the code *)

Lemma extended_refl d q : extended d d q.
Proof. intros data H. exists []. by rewrite app_nil_r. Qed.

Lemma extended_trans d1 d2 d3 q :
  extended d1 d2 q → extended d2 d3 q → extended d1 d3 q.
Proof.
  intros H1 H2 data Hd. destruct (H1 data Hd) as [m1 Hm1].
  destruct (H2 _ Hm1) as [m2 Hm2]. exists (m1 ++ m2).
  by rewrite app_assoc.
Qed.

Lemma extended_insert d (p q : string) more :
  extended d (<[p := default [] (d !! p) ++ more]> d) q.
Proof.
  intros data Hd. destruct (decide (p = q)) as [ -> | Hne ].
  - rewrite lookup_insert_eq, Hd. by eexists.
  - rewrite lookup_insert_ne by done. exists []. by rewrite app_nil_r.
Qed.

(** What the inner [try] can do, whatever the network and the disk do. *)
Lemma download_and_append_summary w base last name path s :
  ∃ r s' evs,
    download_and_append w base last name path s = (r, s')
    ∧ trace s' = trace s ++ evs
    ∧ current_period s' = current_period s
    ∧ current_combined_file s' = current_combined_file s
    ∧ count_sleeps evs = 0
    ∧ ((count_appends evs = 1
        ∧ PROCESSED_FILES s' = {[name]} ∪ PROCESSED_FILES s)
       ∨ (count_appends evs = 0 ∧ PROCESSED_FILES s' = PROCESSED_FILES s))
    ∧ (∀ q, q ≠ temp_path name → extended (disk s) (disk s') q)
    ∧ (∀ e, r = Raised e →
            e = RequestException ∨ e = OSError ∨ e = ValueError
            ∨ (e = TypeError ∧ path = None)).
Proof.
  unfold download_and_append, file_op, guard. fold (temp_path name).
  destruct s as [cp cf ps d tr].
  assert (Hd1 : ∀ c q, q ≠ temp_path name →
                       extended d (<[temp_path name := c]> d) q).
  { intros c q Hq data Hd. rewrite lookup_insert_ne by done.
    exists []. by rewrite app_nil_r. }
  assert (Hd2 : ∀ c c' q, q ≠ temp_path name →
                extended d (<[temp_path name := c]>
                              (<[temp_path name := c']> d)) q).
  { intros c c' q Hq. rewrite insert_insert_eq. by apply Hd1. }
  destruct (segment_of w (base ++ last)) as [ | | content ] eqn:Hdl.
  - eexists _, _, _. run. split; [ reflexivity | ].
    split; [ reflexivity | ]. repeat split; try done.
    + by right.
    + intros q _. apply extended_refl.
    + intros e [= <-]. by left.
  - destruct (has_nul (temp_path name)); destruct (fault w); run;
      eexists _, _, _; (split; [ reflexivity | ]);
      rewrite <- ?app_assoc; cbn [app];
      (split; [ reflexivity | ]); cbn [disk];
      (repeat split; try done);
      try (by right); try (intros q Hq; by first [ apply extended_refl | apply Hd1 | apply Hd2 ]);
      intros e [= <-]; by auto.
  - assert (Hd3 : ∀ p more q, q ≠ temp_path name →
      extended d (<[p := default [] (<[temp_path name := content]> d !! p)
                         ++ more]> (<[temp_path name := content]> d)) q).
    { intros p more q Hq.
      eapply extended_trans; [ by apply (Hd1 content) | ].
      apply extended_insert. }
    assert (Hd4 : ∀ p more q, q ≠ temp_path name →
      extended d (delete (temp_path name)
                    (<[p := default [] (<[temp_path name := content]> d !! p)
                            ++ more]> (<[temp_path name := content]> d))) q).
    { intros p more q Hq data Hd.
      destruct (Hd3 p more q Hq data Hd) as [m Hm].
      exists m. by rewrite lookup_delete_ne. }
    destruct (has_nul (temp_path name));
      [ destruct path as [ p | ] | destruct path as [ p | ];
                                   [ destruct (has_nul p) | ] ];
      destruct (fault w); run;
      rewrite ?insert_insert_eq, ?read_back; run;
      rewrite ?lookup_insert_eq, ?insert_insert_eq; run;
      eexists _, _, _; (split; [ reflexivity | ]);
      rewrite <- ?app_assoc; cbn [app];
      (split; [ reflexivity | ]); cbn [disk];
      (repeat split; try done);
      try (by right); try (by left);
      try (intros q Hq;
           by first [ apply extended_refl | apply Hd1 | apply Hd2
                    | apply Hd3 | apply Hd4 ]);
      intros e [= <-]; by auto 6.
Qed.

Lemma temp_path_is_scratch name : is_scratch (temp_path name).
Proof. reflexivity. Qed.

Lemma count_sleeps_app evs1 evs2 :
  count_sleeps (evs1 ++ evs2) = count_sleeps evs1 + count_sleeps evs2.
Proof. unfold count_sleeps. by rewrite List.filter_app, length_app. Qed.

Lemma run_facts_logged evs s :
  count_appends evs = 0 → run_facts s (logged evs s) evs.
Proof.
  intros Hc. unfold run_facts. cbn. rewrite Hc.
  repeat split; [ done | lia | ]. intros q _. apply extended_refl.
Qed.

Lemma run_facts_trans s1 s2 s3 evs1 evs2 :
  run_facts s1 s2 evs1 → run_facts s2 s3 evs2 →
  run_facts s1 s3 (evs1 ++ evs2).
Proof.
  intros (Ht1 & Hs1 & Hz1 & Hd1) (Ht2 & Hs2 & Hz2 & Hd2).
  unfold run_facts. rewrite count_appends_app.
  split; [ by rewrite Ht2, Ht1, app_assoc | ].
  split; [ by etrans | ]. split; [ lia | ].
  intros q Hq. eapply extended_trans; [ by apply Hd1 | by apply Hd2 ].
Qed.

Section Summaries.
Variable base_url_of : string -> option string.

Lemma cycle_summary w api path s :
  ∃ r s' evs,
    fetch_and_combine_last_audio base_url_of w api path s = (r, s')
    ∧ run_facts s s' evs
    ∧ current_period s' = current_period s
    ∧ current_combined_file s' = current_combined_file s
    ∧ count_sleeps evs = 0
    ∧ count_appends evs <= 1
    ∧ (∀ e, r = Raised e →
            e = IndexError ∨ e = OSError ∨ e = ValueError
            ∨ (e = TypeError ∧ path = None)).
Proof.
  assert (Hlog : ∀ evs (r : result unit),
    count_appends evs = 0 → count_sleeps evs = 0 →
    (∀ e, r = Raised e →
          e = IndexError ∨ e = OSError ∨ e = ValueError
          ∨ (e = TypeError ∧ path = None)) →
    ∃ r0 s' evs0,
      (r, logged evs s) = (r0, s')
      ∧ run_facts s s' evs0
      ∧ current_period s' = current_period s
      ∧ current_combined_file s' = current_combined_file s
      ∧ count_sleeps evs0 = 0
      ∧ count_appends evs0 <= 1
      ∧ (∀ e, r0 = Raised e →
              e = IndexError ∨ e = OSError ∨ e = ValueError
              ∨ (e = TypeError ∧ path = None))).
  { intros evs r Hc Hs He. exists r, (logged evs s), evs.
    split; [ done | ]. split; [ by apply run_facts_logged | ].
    repeat split; try done. lia. }
  destruct (base_url_of api) as [ base | ] eqn:Hb.
  2: { rewrite cycle_rejected_url by done.
       destruct (Hlog [] (Raised ValueError) eq_refl eq_refl)
         as (r0 & s' & evs0 & Heq & H); [ intros e [= <-]; auto | ].
       rewrite logged_nil in Heq. by exists r0, s', evs0. }
  destruct (playlist_of w api) as [ text | ] eqn:Hpl.
  2: { rewrite (cycle_playlist_error _ _ _ _ _ base) by done. by apply Hlog. }
  destruct (last_segment text) as [ last_url | ] eqn:Hl.
  2: { rewrite (cycle_no_audio _ _ _ _ _ base text) by done. by apply Hlog. }
  destruct (segment_id last_url) as [ id | ] eqn:Hi.
  2: { rewrite (cycle_malformed _ _ _ _ _ base text last_url) by done.
       apply Hlog; try done. intros e [= <-]. by left. }
  destruct (decide (file_name_of id ∈ PROCESSED_FILES s)) as [ Hold | Hnew ].
  { rewrite (cycle_already_processed _ _ _ _ _ base text last_url id) by done.
    by apply Hlog. }
  rewrite (cycle_selected _ _ _ _ _ _ _ _ _ Hb Hpl Hl Hi Hnew).
  unfold try_except.
  destruct (download_and_append_summary w base last_url
              (file_name_of id) path (add_event (HttpGet api) s))
    as (r & s1 & evs & -> & Htr & Hcp & Hcf & Hsl & Hps & Hdk & Hex).
  cbn [add_event trace current_period current_combined_file PROCESSED_FILES
       disk] in *.
  assert (Hfacts : run_facts s s1 (HttpGet api :: evs)).
  { unfold run_facts. rewrite Htr, <- app_assoc.
    change (count_appends (HttpGet api :: evs)) with (count_appends evs).
    split; [ done | ].
    destruct Hps as [ [Hc Hp] | [Hc Hp] ]; rewrite Hp, Hc.
    - split; [ apply union_subseteq_r | ]. split.
      + rewrite size_union by (by apply disjoint_singleton_l).
        rewrite size_singleton. lia.
      + intros q Hq. apply Hdk. intros ->. apply Hq, temp_path_is_scratch.
    - split; [ done | ]. split; [ lia | ].
      intros q Hq. apply Hdk. intros ->. apply Hq, temp_path_is_scratch. }
  assert (Hle : count_appends (HttpGet api :: evs) <= 1).
  { change (count_appends (HttpGet api :: evs)) with (count_appends evs).
    destruct Hps as [ [Hc _] | [Hc _] ]; lia. }
  assert (Hsl' : count_sleeps (HttpGet api :: evs) = 0) by exact Hsl.
  destruct r as [ [] | e ].
  - exists (Ok tt), s1, (HttpGet api :: evs).
    split; [ done | ]. split; [ exact Hfacts | ]. repeat split; try done.
  - destruct (Hex e eq_refl) as [ -> | [ -> | [ -> | [-> ->] ] ] ];
      cbn [is_request_exception].
    + exists (Ok tt), (logged [Print (FailedDownload last_url)] s1),
        ((HttpGet api :: evs) ++ [Print (FailedDownload last_url)]).
      split; [ done | ].
      split; [ eapply run_facts_trans; [ done | by apply run_facts_logged ] | ].
      rewrite count_sleeps_app, count_appends_app.
      change (count_sleeps [Print (FailedDownload last_url)]) with 0.
      change (count_appends [Print (FailedDownload last_url)]) with 0.
      cbn [logged current_period current_combined_file].
      repeat split; try done; lia.
    + exists (Raised OSError), s1, (HttpGet api :: evs).
      split; [ done | ]. split; [ exact Hfacts | ].
      repeat split; try done. intros e [= <-]. auto.
    + exists (Raised ValueError), s1, (HttpGet api :: evs).
      split; [ done | ]. split; [ exact Hfacts | ].
      repeat split; try done. intros e [= <-]. auto.
    + exists (Raised TypeError), s1, (HttpGet api :: evs).
      split; [ done | ]. split; [ exact Hfacts | ].
      repeat split; try done. intros e [= <-]. auto 6.
Qed.

End Summaries.

Lemma config_log_quiet files :
  count_appends (config_log files) = 0 ∧ count_sleeps (config_log files) = 0.
Proof.
  unfold config_log, schedule_log, api_log.
  destruct (files SCHEDULE_FILE) as [ | | text ], (files API_FILE);
    try done; by destruct (snd (read_schedule (readlines text) [])).
Qed.

Lemma resolved_facts i s :
  ∃ evs, run_facts s (resolved i s) evs
         ∧ count_appends evs = 0
         ∧ count_sleeps evs = 0
         ∧ (target_set s → target_set (resolved i s)).
Proof.
  destruct (config_log_quiet (files i)) as [Ha Hs].
  pose proof (run_facts_logged (config_log (files i)) s Ha) as Hl.
  unfold resolved.
  destruct (decide (get_current_period (schedule_of (files i SCHEDULE_FILE))
                      (now_time i)
                    = current_period (logged (config_log (files i)) s)))
    as [ He | Hne ].
  - rewrite update_period_same by done. cbn [snd].
    exists (config_log (files i)). split; [ exact Hl | ].
    repeat split; try done.
  - rewrite update_period_changed by done. cbn [snd].
    destruct (get_current_period _ _) as [ w | ].
    + exists (config_log (files i)
              ++ [Print (NewPeriod w (combined_file_name (now_date i) w))]).
      split.
      * eapply run_facts_trans; [ exact Hl | ].
        apply (run_facts_logged [Print _]). done.
      * rewrite count_appends_app, count_sleeps_app, Ha, Hs.
        repeat split; try done. intros _ _. by eexists.
    + exists (config_log (files i)). split.
      * destruct Hl as (H1 & H2 & H3 & H4). by repeat split.
      * repeat split; try done. intros _ [w Hw]. done.
Qed.

Section LoopSummaries.
Variable base_url_of : string -> option string.

Lemma iteration_summary i s :
  ∃ r s' evs,
    iteration base_url_of i s = (r, s')
    ∧ run_facts s s' evs
    ∧ (target_set s → target_set s')
    ∧ count_appends evs <= 1
    ∧ count_sleeps evs = (match r with Ok _ => 1 | Raised _ => 0 end)
    ∧ (∀ e, r = Raised e → target_set s →
            e = IndexError ∨ e = OSError ∨ e = ValueError).
Proof.
  rewrite iteration_eq.
  destruct (config_log_quiet (files i)) as [Ha Hs].
  destruct (falsy (api_url_of (files i API_FILE))).
  { eexists _, _, _. split; [ reflexivity | ].
    split; [ apply run_facts_logged | ].
    - rewrite count_appends_app, Ha. done.
    - rewrite count_appends_app, count_sleeps_app, Ha, Hs.
      repeat split; try done. cbn. lia. }
  destruct (resolved_facts i s) as (evs0 & Hf0 & Ha0 & Hs0 & Ht0).
  destruct (current_period (resolved i s)) as [ w | ] eqn:Hw.
  - destruct (cycle_summary base_url_of (world i)
                (default EmptyString (api_url_of (files i API_FILE)))
                (current_combined_file (resolved i s)) (resolved i s))
      as (r & s1 & evs & Hc & Hf & Hcp & Hcf & Hsl & Hle & Hex).
    unfold bind. rewrite Hc.
    assert (Hts : target_set s → target_set s1).
    { intros Hs'. specialize (Ht0 Hs'). unfold target_set in *.
      by rewrite Hcp, Hcf. }
    destruct r as [ [] | e ].
    + exists (Ok tt), (logged [Sleep 10] s1), ((evs0 ++ evs) ++ [Sleep 10]).
      split; [ done | ]. split.
      * eapply run_facts_trans; [ by eapply run_facts_trans | ].
        by apply run_facts_logged.
      * rewrite !count_appends_app, !count_sleeps_app, Ha0, Hs0, Hsl.
        repeat split; try done. cbn. lia.
    + exists (Raised e), s1, (evs0 ++ evs).
      split; [ done | ]. split; [ by eapply run_facts_trans | ].
      rewrite !count_appends_app, !count_sleeps_app, Ha0, Hs0, Hsl.
      repeat split; try done.
      intros e' [= <-] Hs'.
      destruct (Hex e eq_refl) as [ -> | [ -> | [ -> | [-> Hnone] ] ] ]; auto.
      exfalso. destruct (Ht0 Hs') as [f Hf']; [ by rewrite Hw | ].
      by rewrite Hnone in Hf'.
  - exists (Ok tt), (logged [Print NoActivePeriod; Sleep 10] (resolved i s)),
      (evs0 ++ [Print NoActivePeriod; Sleep 10]).
    split; [ done | ]. split.
    + eapply run_facts_trans; [ exact Hf0 | by apply run_facts_logged ].
    + rewrite !count_appends_app, !count_sleeps_app, Ha0, Hs0.
      repeat split; try done. cbn. lia.
Qed.

Lemma main_loop_summary inputs s :
  ∃ r s' evs,
    main_loop base_url_of inputs s = (r, s')
    ∧ run_facts s s' evs
    ∧ (target_set s → target_set s')
    ∧ count_appends evs <= length inputs
    ∧ (match r with
       | Ok _ => count_sleeps evs = length inputs
       | Raised _ => count_sleeps evs < length inputs
       end)
    ∧ (∀ e, r = Raised e → target_set s →
            e = IndexError ∨ e = OSError ∨ e = ValueError).
Proof.
  revert s. induction inputs as [ | i rest IH ]; intros s.
  - exists (Ok tt), s, []. split; [ done | ].
    split; [ rewrite <- (logged_nil s) at 2; by apply run_facts_logged | ].
    repeat split; try done.
  - cbn [main_loop]. unfold bind.
    destruct (iteration_summary i s)
      as (r & s1 & evs1 & -> & Hf1 & Ht1 & Ha1 & Hs1 & He1).
    destruct r as [ [] | e ].
    + destruct (IH s1) as (r2 & s2 & evs2 & -> & Hf2 & Ht2 & Ha2 & Hs2 & He2).
      exists r2, s2, (evs1 ++ evs2).
      split; [ done | ]. split; [ by eapply run_facts_trans | ].
      rewrite count_appends_app, count_sleeps_app. cbn [length].
      split; [ auto | ]. split; [ lia | ]. split.
      * destruct r2; lia.
      * intros e Hr Hs. apply (He2 e Hr). auto.
    + exists (Raised e), s1, evs1.
      split; [ done | ]. split; [ done | ]. cbn [length].
      split; [ done | ]. split; [ lia | ]. split; [ lia | ].
      intros e' [= <-]. by apply He1.
Qed.

End LoopSummaries.

Section RunInvariants.
Variable base_url_of : string -> option string.

(** X1. Over any number of iterations of the main loop, whatever the
    network and the disk do, [PROCESSED_FILES] only grows: no file name
    ever leaves it. *)
Theorem processed_files_only_grow inputs s :
  PROCESSED_FILES s
  ⊆ PROCESSED_FILES (snd (main_loop base_url_of inputs s)).
Proof.
  destruct (main_loop_summary base_url_of inputs s)
    as (r & s' & evs & -> & (_ & Hsub & _) & _).
  exact Hsub.
Qed.

(** X3. Over any run of the main loop, a file outside the scratch
    directory is never truncated, overwritten or removed: its content at
    the start is a prefix of its content at the end. *)
Theorem files_outside_scratch_only_extended inputs s q data :
  ¬ is_scratch q →
  disk s !! q = Some data →
  ∃ more,
    disk (snd (main_loop base_url_of inputs s)) !! q = Some (data ++ more).
Proof.
  intros Hq Hd.
  destruct (main_loop_summary base_url_of inputs s)
    as (r & s' & evs & -> & (_ & _ & _ & Hext) & _).
  by apply (Hext q Hq).
Qed.

(** X4. A failure of the network never ends the main loop, and from a
    state in which an active period has its target, as at the start of
    the script, the loop never opens a target that is [None]: the
    exception that ends a run is neither a [requests.RequestException]
    nor a [TypeError]. *)
Theorem network_failure_never_ends_main_loop inputs s e :
  target_set s →
  fst (main_loop base_url_of inputs s) = Raised e →
  e ≠ RequestException ∧ e ≠ TypeError.
Proof.
  intros Hs Hr.
  destruct (main_loop_summary base_url_of inputs s)
    as (r & s' & evs & Hm & _ & _ & _ & _ & Hex).
  rewrite Hm in Hr. cbn in Hr.
  destruct (Hex e Hr Hs) as [ -> | [ -> | -> ] ]; by split.
Qed.

(** X5. The main loop sleeps once after every iteration that
    completes, whether it fetched, idled or found no API URL, and the
    cycle itself never sleeps: a run that completes has slept as many
    times as it has iterations, and a run that ends with an exception
    fewer. *)
Theorem one_sleep_per_completed_iteration inputs s :
  let r := main_loop base_url_of inputs s in
  ∃ evs, trace (snd r) = trace s ++ evs
         ∧ (fst r = Ok tt → count_sleeps evs = length inputs)
         ∧ (∀ e, fst r = Raised e → count_sleeps evs < length inputs).
Proof.
  destruct (main_loop_summary base_url_of inputs s)
    as (r & s' & evs & -> & (Htr & _) & _ & _ & Hsl & _).
  exists evs. cbn [fst snd]. split; [ done | ].
  split; [ by intros -> | by intros e -> ].
Qed.

End RunInvariants.

Lemma initial_target_set : target_set initial_state.
Proof. intros [w Hw]. discriminate Hw. Qed.

Lemma files_outside_scratch_only_extended_witness :
  let i := example_tick example_api_file (example_world NoFault) in
  let target := "sound/combined_20240105_0900_1000.aac"%string in
  let s := mk_state None None ∅ {[ target := [Byte.x30] ]} [] in
  ¬ is_scratch target
  ∧ disk s !! target = Some [Byte.x30]
  ∧ ∃ more, disk (snd (main_loop example_base_url [i; i] s)) !! target
            = Some ([Byte.x30] ++ more).
Proof.
  intros i target s.
  assert (Hq : ¬ is_scratch target) by (intros H; discriminate H).
  split; [ exact Hq | ]. split; [ reflexivity | ].
  apply (files_outside_scratch_only_extended example_base_url [i; i] s target
           [Byte.x30] Hq eq_refl).
Defined.

Lemma network_failure_never_ends_main_loop_witness :
  let i := example_tick example_api_file malformed_world in
  target_set initial_state
  ∧ fst (main_loop example_base_url [i; i] initial_state) = Raised IndexError
  ∧ IndexError ≠ RequestException ∧ IndexError ≠ TypeError.
Proof.
  intros i. split; [ exact initial_target_set | ].
  split; [ reflexivity | ].
  apply (network_failure_never_ends_main_loop example_base_url [i; i]
           initial_state IndexError initial_target_set eq_refl).
Defined.

Lemma one_sleep_per_completed_iteration_witness :
  let i := example_tick example_api_file (example_world NoFault) in
  let r := main_loop example_base_url [i; i; i] initial_state in
  fst r = Ok tt
  ∧ ∃ evs, trace (snd r) = trace initial_state ++ evs ∧ count_sleeps evs = 3.
Proof.
  intros i r. split; [ reflexivity | ].
  destruct (one_sleep_per_completed_iteration example_base_url [i; i; i]
              initial_state) as (evs & Htr & Hok & _).
  exists evs. split; [ exact Htr | exact (Hok eq_refl) ].
Defined.

Section NetworkFailures.
Variable base_url_of : string -> option string.

(** X6. When the request for the last segment is refused, the cycle
    prints the failure and returns normally: the set, the disk and the
    globals are as before, and only the two requests and the message are
    added to what was observed. The playlist is one fetched at a URL
    that [urlparse] accepts. *)
Theorem refused_download_is_skipped w api path s base text last_url id :
  base_url_of api = Some base →
  playlist_of w api = Some text →
  last_segment text = Some last_url →
  segment_id last_url = Some id →
  file_name_of id ∉ PROCESSED_FILES s →
  segment_of w (base ++ last_url) = DlRefused →
  fetch_and_combine_last_audio base_url_of w api path s =
  (Ok tt,
   logged [HttpGet api; HttpGet (base ++ last_url);
           Print (FailedDownload last_url)] s).
Proof.
  intros Hb Hpl Hl Hi Hn Hd.
  rewrite (cycle_selected _ _ _ _ _ _ _ _ _ Hb Hpl Hl Hi Hn).
  unfold try_except, download_and_append. rewrite Hd.
  destruct s as [cp cf ps d tr]. run. unfold logged. cbn.
  by rewrite <- !app_assoc.
Qed.

Lemma filter_none {A} (f : A → bool) l :
  Forall (λ x, f x = false) l → List.filter f l = [].
Proof.
  induction 1 as [ | x l Hx _ IH ]; [ done | ]. cbn. by rewrite Hx.
Qed.

(** X7. At a URL that [urlparse] accepts, when the playlist cannot be
    fetched, or none of its lines contains [.aac] (an empty playlist
    among them), the cycle prints which of the two happened and returns
    normally without asking for any segment: the set, the disk and the
    globals are as before. *)
Theorem unusable_playlist_is_skipped w api path s base :
  base_url_of api = Some base →
  (playlist_of w api = None →
   fetch_and_combine_last_audio base_url_of w api path s =
   (Ok tt, logged [HttpGet api; Print ErrorFetchingPlaylist] s))
  ∧ (∀ text,
       playlist_of w api = Some text →
       Forall (λ line, PyStr.contains ".aac" line = false)
              (PyStr.splitlines text) →
       fetch_and_combine_last_audio base_url_of w api path s =
       (Ok tt, logged [HttpGet api; Print NoAudioUrls] s)).
Proof.
  intros Hb. split.
  - intros Hpl. by apply (cycle_playlist_error _ _ _ _ _ base).
  - intros text Hpl Hall. apply (cycle_no_audio _ _ _ _ _ base text Hb Hpl).
    unfold last_segment. by rewrite filter_none.
Qed.

(** X13. At a time outside every window of the schedule, and so
    whenever the schedule file is missing, unreadable or empty, an
    iteration that has read an API URL asks the network for nothing: it
    forgets the period, prints that none is active and sleeps, leaving
    the target, the set and the disk as they are. *)
Theorem idle_outside_every_window i s :
  falsy (api_url_of (files i API_FILE)) = false →
  get_current_period (schedule_of (files i SCHEDULE_FILE)) (now_time i)
  = None →
  iteration base_url_of i s =
  (Ok tt,
   mk_state None (current_combined_file s) (PROCESSED_FILES s) (disk s)
            (trace s ++ config_log (files i)
                     ++ [Print NoActivePeriod; Sleep 10])).
Proof.
  intros Hf Hnone. rewrite iteration_eq, Hf.
  pose proof (current_period_resolved i s) as Hcp. rewrite Hnone in Hcp.
  rewrite Hcp. f_equal. unfold resolved. rewrite Hnone.
  destruct (decide (None = current_period (logged (config_log (files i)) s)))
    as [ He | Hne ].
  - rewrite update_period_same by done. cbn [snd].
    destruct s as [cp cf ps d tr]. cbn in He. subst cp.
    unfold logged. cbn. by rewrite <- !app_assoc.
  - rewrite update_period_changed by done. cbn [snd].
    unfold logged. cbn. by rewrite <- !app_assoc.
Qed.

End NetworkFailures.

Lemma schedule_of_missing :
  schedule_of Missing = [] ∧ schedule_of Unreadable = []
  ∧ schedule_of (Readable "") = [].
Proof. done. Qed.

(** ** The schedule clock, once more *)

Lemma get_current_period_some schedule t w :
  get_current_period schedule t = Some w →
  w ∈ schedule ∧ window_matches t w.
Proof.
  induction schedule as [ | w0 rest IH ]; [ done | ].
  rewrite get_current_period_cons. case_decide as Hm.
  - intros [= <-]. split; [ left | done ].
  - intros H. destruct (IH H). split; [ by right | done ].
Qed.

Lemma get_current_period_none schedule t :
  get_current_period schedule t = None →
  ∀ w, w ∈ schedule → ¬ window_matches t w.
Proof.
  induction schedule as [ | w0 rest IH ]; [ intros _ w Hw; inversion Hw | ].
  rewrite get_current_period_cons. case_decide as Hm; [ done | ].
  intros H w Hw. inversion Hw; subst; [ done | by apply IH ].
Qed.

(** X8. When at most one window of the schedule contains the current
    time, as the configuration is meant to ensure, the order of the lines
    does not matter: every reordering of the schedule gives the same
    period. *)
Theorem period_independent_of_order schedule schedule' t :
  schedule ≡ₚ schedule' →
  (∀ w1 w2, w1 ∈ schedule → w2 ∈ schedule →
            window_matches t w1 → window_matches t w2 → w1 = w2) →
  get_current_period schedule t = get_current_period schedule' t.
Proof.
  intros Hp Huniq.
  destruct (get_current_period schedule t) as [ w | ] eqn:H1;
    destruct (get_current_period schedule' t) as [ w' | ] eqn:H2.
  - apply get_current_period_some in H1 as [Hin1 Hm1].
    apply get_current_period_some in H2 as [Hin2 Hm2].
    rewrite <- Hp in Hin2. f_equal. by apply Huniq.
  - apply get_current_period_some in H1 as [Hin1 Hm1].
    rewrite Hp in Hin1.
    by destruct (get_current_period_none _ _ H2 w Hin1).
  - apply get_current_period_some in H2 as [Hin2 Hm2].
    rewrite <- Hp in Hin2.
    by destruct (get_current_period_none _ _ H1 w' Hin2).
  - done.
Qed.

Lemma hour_alternatives_bound s h r :
  In (h, r) (Strptime.hour_alternatives s) → h < 24.
Proof.
  unfold Strptime.hour_alternatives, PyStr.is_digit, PyStr.digit_val.
  destruct s as [ | a [ | b r' ] ]; cbn [In app]; [ done | | ].
  - destruct (_ && _) eqn:Ha; [ | done ].
    intros [ [= <- _] | [] ].
    apply andb_true_iff in Ha as [H1 H2].
    apply Nat.leb_le in H1, H2. lia.
  - rewrite !in_app_iff.
    intros [ [ Hin | Hin ] | Hin ].
    + destruct (_ && _ && _) eqn:Ha; [ | done ].
      destruct Hin as [ [= <- _] | [] ].
      apply andb_true_iff in Ha as [Ha H3].
      apply andb_true_iff in Ha as [H1 H2].
      apply Nat.eqb_eq in H1. apply Nat.leb_le in H2, H3. lia.
    + destruct (_ && _ && _) eqn:Ha; [ | done ].
      destruct Hin as [ [= <- _] | [] ].
      apply andb_true_iff in Ha as [Ha H3].
      apply andb_true_iff in Ha as [H1 H2].
      apply andb_true_iff in H3 as [H3 H4].
      apply Nat.leb_le in H1, H2, H3, H4. lia.
    + destruct (_ && _) eqn:Ha; [ | done ].
      destruct Hin as [ [= <- _] | [] ].
      apply andb_true_iff in Ha as [H1 H2].
      apply Nat.leb_le in H1, H2. lia.
Qed.

Lemma minute_alternatives_bound s m r :
  In (m, r) (Strptime.minute_alternatives s) → m < 60.
Proof.
  unfold Strptime.minute_alternatives, PyStr.is_digit, PyStr.digit_val.
  destruct s as [ | a [ | b r' ] ]; cbn [In app]; [ done | | ].
  - destruct (_ && _) eqn:Ha; [ | done ].
    intros [ [= <- _] | [] ].
    apply andb_true_iff in Ha as [H1 H2].
    apply Nat.leb_le in H1, H2. lia.
  - rewrite !in_app_iff.
    intros [ Hin | Hin ].
    + destruct (_ && _ && _) eqn:Ha; [ | done ].
      destruct Hin as [ [= <- _] | [] ].
      apply andb_true_iff in Ha as [Ha H3].
      apply andb_true_iff in Ha as [H1 H2].
      apply andb_true_iff in H3 as [H3 H4].
      apply Nat.leb_le in H1, H2, H3, H4. lia.
    + destruct (_ && _) eqn:Ha; [ | done ].
      destruct Hin as [ [= <- _] | [] ].
      apply andb_true_iff in Ha as [H1 H2].
      apply Nat.leb_le in H1, H2. lia.
Qed.

Lemma head_In {A} (l : list A) x : head l = Some x → In x l.
Proof. destruct l; [ done | ]. intros [= <-]. by left. Qed.

Lemma strptime_HM_whole_minute s t :
  Strptime.strptime_HM s = Some t → whole_minute t.
Proof.
  unfold Strptime.strptime_HM, Strptime.regex_match.
  destruct (head _) as [ [[h m] rest] | ] eqn:Hh; [ | done ].
  destruct rest; [ | done ]. intros [= <-].
  apply head_In in Hh. apply in_flat_map in Hh as ([h0 r0] & Hin & Hc).
  unfold Strptime.colon_minute in Hc. cbn [fst snd] in Hc.
  destruct r0 as [ | c r1 ]; [ done | ].
  destruct (PyStr.code c =? 58); [ | done ].
  destruct (Strptime.minute_alternatives r1) as [ | [m0 rest0] l ] eqn:Hm; [ done | ].
  destruct Hc as [ [= -> -> _] | [] ].
  unfold whole_minute. cbn.
  split; [ by eapply hour_alternatives_bound | ].
  split; [ | done ].
  eapply (minute_alternatives_bound r1 m rest0). rewrite Hm. by left.
Qed.

Lemma read_schedule_whole_minutes lines schedule :
  Forall (λ w, whole_minute (fst w) ∧ whole_minute (snd w)) schedule →
  Forall (λ w, whole_minute (fst w) ∧ whole_minute (snd w))
         (fst (read_schedule lines schedule)).
Proof.
  revert schedule. induction lines as [ | line rest IH ]; intros schedule Hs.
  - done.
  - cbn [read_schedule].
    destruct (PyStr.split "-" (PyStr.strip line)) as [ | p0 [ | p1 [ | ] ] ];
      try by apply IH.
    destruct (Strptime.strptime_HM p0) as [ t0 | ] eqn:H0; [ | done ].
    destruct (Strptime.strptime_HM p1) as [ t1 | ] eqn:H1; [ | done ].
    apply IH. apply Forall_app. split; [ done | ].
    constructor; [ | done ]. cbn.
    split; by eapply strptime_HM_whole_minute.
Qed.

(** X10. Every window that [load_schedule_conf] returns has both its
    bounds inside the day and on a whole minute: hours below 24, minutes
    below 60, no seconds and no microseconds. *)
Theorem loaded_windows_are_whole_minutes files schedule_file s :
  ∃ schedule s',
    load_schedule_conf files schedule_file s = (Ok schedule, s')
    ∧ Forall (λ w, whole_minute (fst w) ∧ whole_minute (snd w)) schedule.
Proof.
  rewrite load_schedule_conf_eq. eexists _, _. split; [ reflexivity | ].
  unfold schedule_of. destruct (files schedule_file); try done.
  by apply read_schedule_whole_minutes.
Qed.

Lemma parses_back_all :
  forallb (λ h, forallb (parses_back h) (seq 0 60)) (seq 0 24) = true.
Proof. vm_compute. reflexivity. Qed.

(** X9. For every hour below 24 and minute below 60, the text
    [HH:MM] of two digits each is read by [strptime] with [%H:%M] as
    that time; the line [HH:MM-HH:MM] therefore gives the window whose
    bounds [strftime] with [%H%M] prints back as the same digits. *)
Theorem two_digit_times_parse_back h m :
  h < 24 → m < 60 →
  Strptime.strptime_HM (PyStr.pad2 h ++ ":" ++ PyStr.pad2 m) = Some (mk_time h m 0 0)
  ∧ strftime_HM (mk_time h m 0 0) = (PyStr.pad2 h ++ PyStr.pad2 m)%string.
Proof.
  intros Hh Hm. split; [ | done ].
  pose proof parses_back_all as Hall.
  rewrite forallb_forall in Hall.
  specialize (Hall h). rewrite forallb_forall in Hall.
  assert (Hp : parses_back h m = true).
  { apply Hall; apply in_seq; lia. }
  unfold parses_back in Hp. by apply bool_decide_eq_true in Hp.
Qed.

Lemma two_digit_times_parse_back_witness :
  23 < 24 ∧ 59 < 60
  ∧ Strptime.strptime_HM "23:59" = Some (mk_time 23 59 0 0)
  ∧ strftime_HM (mk_time 23 59 0 0) = "2359".
Proof.
  split; [ lia | ]. split; [ lia | ].
  apply (two_digit_times_parse_back 23 59); lia.
Defined.

Lemma digit_char_inj a b :
  PyStr.digit_char a = PyStr.digit_char b → a mod 10 = b mod 10.
Proof.
  unfold PyStr.digit_char. intros H.
  apply (f_equal nat_of_ascii) in H.
  pose proof (Nat.mod_upper_bound a 10). pose proof (Nat.mod_upper_bound b 10).
  rewrite !nat_ascii_embedding in H by lia. lia.
Qed.

Lemma mod_100 a : a mod 100 = a mod 10 + 10 * ((a / 10) mod 10).
Proof. change 100 with (10 * 10). apply Nat.Div0.mod_mul_r. Qed.

Lemma pad2_inj a b : PyStr.pad2 a = PyStr.pad2 b → a mod 100 = b mod 100.
Proof.
  intros H.
  assert (H1 : PyStr.digit_char (a / 10) = PyStr.digit_char (b / 10))
    by (unfold PyStr.pad2 in H; congruence).
  assert (H2 : PyStr.digit_char a = PyStr.digit_char b)
    by (unfold PyStr.pad2 in H; congruence).
  apply digit_char_inj in H1, H2. rewrite !mod_100. lia.
Qed.

Lemma pad2_inj_small a b : a < 100 → b < 100 → PyStr.pad2 a = PyStr.pad2 b → a = b.
Proof.
  intros Ha Hb H. apply pad2_inj in H.
  by rewrite !Nat.mod_small in H.
Qed.

Lemma pad4_inj a b :
  a < 100 * 100 → b < 100 * 100 → PyStr.pad4 a = PyStr.pad4 b → a = b.
Proof.
  intros Ha Hb H.
  unfold PyStr.pad4, PyStr.pad2 in H. cbv beta iota delta [String.append] in H.
  assert (H1 : PyStr.pad2 (a / 100) = PyStr.pad2 (b / 100))
    by (unfold PyStr.pad2; congruence).
  assert (H2 : PyStr.pad2 a = PyStr.pad2 b) by (unfold PyStr.pad2; congruence).
  apply pad2_inj in H2.
  apply pad2_inj_small in H1;
    try (apply Nat.Div0.div_lt_upper_bound; lia).
  rewrite (Nat.div_mod_eq a 100), (Nat.div_mod_eq b 100). lia.
Qed.

Lemma whole_minute_eq t t' :
  whole_minute t → whole_minute t' →
  PyStr.pad2 (hour t) = PyStr.pad2 (hour t') → PyStr.pad2 (minute t) = PyStr.pad2 (minute t') →
  t = t'.
Proof.
  intros (Hh & Hm & Hs & Hu) (Hh' & Hm' & Hs' & Hu') E1 E2.
  apply pad2_inj_small in E1, E2; try lia.
  destruct t, t'. cbn in *. congruence.
Qed.

Lemma combined_file_name_inj d d' w w' :
  calendar_date d → calendar_date d' →
  whole_minute (fst w) → whole_minute (snd w) →
  whole_minute (fst w') → whole_minute (snd w') →
  combined_file_name d w = combined_file_name d' w' →
  d = d' ∧ w = w'.
Proof.
  intros (Hy & Hmo & Hd) (Hy' & Hmo' & Hd') Hs He Hs' He' H.
  unfold combined_file_name, strftime_Ymd, strftime_HM, OUTPUT_DIR in H.
  unfold PyStr.pad4, PyStr.pad2 in H. cbv beta iota delta [String.append] in H.
  assert (E1 : PyStr.pad4 (year d) = PyStr.pad4 (year d')).
  { unfold PyStr.pad4, PyStr.pad2. cbv beta iota delta [String.append]. congruence. }
  assert (E2 : PyStr.pad2 (month d) = PyStr.pad2 (month d')) by (unfold PyStr.pad2; congruence).
  assert (E3 : PyStr.pad2 (day d) = PyStr.pad2 (day d')) by (unfold PyStr.pad2; congruence).
  assert (E4 : PyStr.pad2 (hour (fst w)) = PyStr.pad2 (hour (fst w')))
    by (unfold PyStr.pad2; congruence).
  assert (E5 : PyStr.pad2 (minute (fst w)) = PyStr.pad2 (minute (fst w')))
    by (unfold PyStr.pad2; congruence).
  assert (E6 : PyStr.pad2 (hour (snd w)) = PyStr.pad2 (hour (snd w')))
    by (unfold PyStr.pad2; congruence).
  assert (E7 : PyStr.pad2 (minute (snd w)) = PyStr.pad2 (minute (snd w')))
    by (unfold PyStr.pad2; congruence).
  apply pad4_inj in E1; try done.
  apply pad2_inj_small in E2, E3; try done.
  split.
  - destruct d, d'. cbn in *. congruence.
  - destruct w as [s e], w' as [s' e']. cbn [fst snd] in *.
    f_equal; by apply whole_minute_eq.
Qed.

(** X11. The name of the combined file tells the day and the window
    apart: for dates with a year of four digits and windows on whole
    minutes, as [load_schedule_conf] makes them, two targets are equal
    only if they are of the same date and the same window. *)
Theorem one_target_per_day_and_window d d' w w' :
  calendar_date d → calendar_date d' →
  whole_minute (fst w) → whole_minute (snd w) →
  whole_minute (fst w') → whole_minute (snd w') →
  combined_file_name d w = combined_file_name d' w' →
  d = d' ∧ w = w'.
Proof. apply combined_file_name_inj. Qed.

Lemma schedule_of_whole_minutes f w :
  w ∈ schedule_of f → whole_minute (fst w) ∧ whole_minute (snd w).
Proof.
  intros Hin.
  assert (Hall : Forall (λ w, whole_minute (fst w) ∧ whole_minute (snd w))
                        (schedule_of f)).
  { unfold schedule_of. destruct f; try done.
    by apply read_schedule_whole_minutes. }
  rewrite Forall_forall in Hall. by apply Hall.
Qed.

Lemma one_target_per_day_and_window_witness :
  calendar_date example_day ∧ calendar_date (mk_date 2024 1 6)
  ∧ whole_minute (fst nine_to_ten) ∧ whole_minute (snd nine_to_ten)
  ∧ combined_file_name example_day nine_to_ten
    ≠ combined_file_name (mk_date 2024 1 6) nine_to_ten.
Proof.
  assert (Hd : calendar_date example_day) by (repeat split; cbn; lia).
  assert (Hd' : calendar_date (mk_date 2024 1 6))
    by (repeat split; cbn; lia).
  assert (H1 : whole_minute (fst nine_to_ten))
    by (repeat split; cbn; lia).
  assert (H2 : whole_minute (snd nine_to_ten))
    by (repeat split; cbn; lia).
  split; [ exact Hd | ]. split; [ exact Hd' | ].
  split; [ exact H1 | ]. split; [ exact H2 | ].
  intros H.
  destruct (one_target_per_day_and_window example_day (mk_date 2024 1 6)
              nine_to_ten nine_to_ten Hd Hd' H1 H2 H1 H2 H) as [E _].
  discriminate E.
Defined.

Lemma count_appends_none evs p d :
  count_appends evs = 0 → ¬ In (AppendedTo p d) evs.
Proof.
  unfold count_appends. intros Hc Hin.
  assert (Hf : In (AppendedTo p d) (List.filter is_append evs))
    by (apply filter_In; by split).
  destruct (List.filter is_append evs); [ done | discriminate Hc ].
Qed.

Section OpeningDay.
Variable base_url_of : string -> option string.

(** The target after a tick that resolves to a window. *)
Lemma iteration_target i s w :
  falsy (api_url_of (files i API_FILE)) = false →
  get_current_period (schedule_of (files i SCHEDULE_FILE)) (now_time i)
  = Some w →
  let s' := snd (iteration base_url_of i s) in
  current_period s' = Some w
  ∧ (current_period s ≠ Some w →
     current_combined_file s' = Some (combined_file_name (now_date i) w))
  ∧ (current_period s = Some w →
     current_combined_file s' = current_combined_file s).
Proof.
  intros Hf Hp s'. subst s'.
  destruct (iteration_globals base_url_of i s Hf) as [-> ->].
  unfold resolved. rewrite Hp.
  destruct (update_period_target (Some w) (now_date i)
              (logged (config_log (files i)) s)) as (H1 & H2 & H3 & _).
  cbn [logged current_period current_combined_file] in H2, H3.
  split; [ done | ]. split.
  - intros Hne. apply H2; [ done | ]. intros He. by apply Hne.
  - intros He. by rewrite H3.
Qed.

(** A tick outside every window completes and keeps the target. *)
Lemma iteration_idle i s :
  falsy (api_url_of (files i API_FILE)) = false →
  get_current_period (schedule_of (files i SCHEDULE_FILE)) (now_time i)
  = None →
  ∃ s', iteration base_url_of i s = (Ok tt, s')
        ∧ current_period s' = None
        ∧ current_combined_file s' = current_combined_file s.
Proof.
  intros Hf Hp. rewrite iteration_eq, Hf.
  pose proof (current_period_resolved i s) as Hcp. rewrite Hp in Hcp.
  rewrite Hcp. eexists. split; [ reflexivity | ].
  cbn [logged current_period current_combined_file].
  split; [ done | ]. unfold resolved. rewrite Hp.
  by destruct (update_period_target None (now_date i)
                 (logged (config_log (files i)) s)) as (_ & _ & _ & ->).
Qed.

(** C10, as the code has it. The target is named at the tick at which
    a window opens, that is, at which the period resolved differs from
    the one remembered, with the date of that tick; a tick that resolves
    to the window remembered keeps the target it finds, whatever its own
    date. So two ticks at which the same window opens get the same target
    exactly when they are on the same date, and a window that opens,
    goes inactive and opens again on that date gets back the target it
    had. A cycle that appends to the target extends the file found
    there, or starts it when there is none; apart from the scratch file,
    no other file changes. *)
Theorem target_named_on_opening_day i1 i2 s1 s2 w :
  let period i :=
    get_current_period (schedule_of (files i SCHEDULE_FILE)) (now_time i) in
  let after i s := current_combined_file (snd (iteration base_url_of i s)) in
  let target := combined_file_name (now_date i1) w in
  falsy (api_url_of (files i1 API_FILE)) = false →
  falsy (api_url_of (files i2 API_FILE)) = false →
  period i1 = Some w →
  period i2 = Some w →
  calendar_date (now_date i1) →
  calendar_date (now_date i2) →
  (current_period s1 ≠ Some w → after i1 s1 = Some target)
  ∧ (current_period s1 = Some w → after i1 s1 = current_combined_file s1)
  ∧ (current_period s1 ≠ Some w → current_period s2 ≠ Some w →
     (after i1 s1 = after i2 s2 ↔ now_date i1 = now_date i2))
  ∧ (∀ idle,
       falsy (api_url_of (files idle API_FILE)) = false →
       period idle = None →
       current_period s1 ≠ Some w →
       now_date i2 = now_date i1 →
       current_combined_file
         (snd (main_loop base_url_of [i1; idle; i2] s1))
       = Some target)
  ∧ (∀ o api s base text last_url id content,
       base_url_of api = Some base →
       playlist_of o api = Some text →
       last_segment text = Some last_url →
       segment_id last_url = Some id →
       file_name_of id ∉ PROCESSED_FILES s →
       segment_of o (base ++ last_url) = DlServed content →
       append_succeeds (fault o) = true →
       has_nul id = false →
       let s' := snd (fetch_and_combine_last_audio base_url_of o api
                        (Some target) s) in
       disk s' !! target = Some (default [] (disk s !! target) ++ content)
       ∧ ∀ q, q ≠ target → q ≠ temp_path (file_name_of id) →
              disk s' !! q = disk s !! q).
Proof.
  intros period after target Hf1 Hf2 Hp1 Hp2 Hd1 Hd2.
  subst period after target. cbn beta in *.
  destruct (iteration_target i1 s1 w Hf1 Hp1) as (Hc1 & Ho1 & Hk1).
  destruct (iteration_target i2 s2 w Hf2 Hp2) as (Hc2 & Ho2 & Hk2).
  split; [ exact Ho1 | ]. split; [ exact Hk1 | ].
  split; [ | split ].
  - intros Hn1 Hn2. rewrite (Ho1 Hn1), (Ho2 Hn2). split.
    + intros H.
      assert (H' : combined_file_name (now_date i1) w
                   = combined_file_name (now_date i2) w) by congruence.
      apply get_current_period_some in Hp1 as [Hin _].
      apply schedule_of_whole_minutes in Hin as [Hs He].
      by destruct (combined_file_name_inj _ _ _ _ Hd1 Hd2 Hs He Hs He H').
    + by intros ->.
  - intros idle Hfi Hpi Hn1 Hdate.
    cbn [main_loop]. unfold bind at 1.
    destruct (iteration base_url_of i1 s1) as [[ [] | e ] sa] eqn:Hi1;
      cbn [snd] in Ho1, Hc1; [ | by apply Ho1 ].
    unfold bind at 1.
    destruct (iteration_idle idle sa Hfi Hpi) as (sb & -> & Hcb & Hfb).
    destruct (iteration_target i2 sb w Hf2 Hp2) as (_ & Hob & _).
    unfold bind, ret.
    destruct (iteration base_url_of i2 sb) as [[ [] | e ] sc];
      cbn [snd] in *; rewrite Hob, Hdate; congruence.
  - intros o api s base text last_url id content Hb Hpl Hl Hi Hn Hd Hf Hni.
    pose proof (combined_file_not_scratch (now_date i1) w (file_name_of id))
      as Hne.
    destruct (cycle_appends_disk base_url_of o api
                (combined_file_name (now_date i1) w) s base text last_url id
                content Hb Hpl Hl Hi Hn Hd Hf Hni
                (combined_file_name_no_nul _ _)) as [H1 H2].
    split; [ by apply H1 | exact H2 ].
Qed.

End OpeningDay.

(** C10 as stated fails here. Under the schedule [23:00-01:00] the
    ticks at 00:15 and at 23:30 of 6 January resolve to the same window,
    but the first still uses the file named on the evening of the 5th,
    when the window opened, and the second, at which the window opens
    again, a file named on the 6th: the appends of one date and one
    window go to two files. *)
Lemma same_day_same_window_other_file :
  let t0 := night_tick (mk_time 23 30 0 0) (mk_date 2024 1 5)
                       (serving "seg_001_20240105T2330.aac" [Byte.x41]) in
  let t1 := night_tick (mk_time 0 15 0 0) (mk_date 2024 1 6)
                       (serving "seg_001_20240106T0015.aac" [Byte.x42]) in
  let t2 := night_tick (mk_time 12 0 0 0) (mk_date 2024 1 6)
                       (serving "seg_001_20240106T1200.aac" [Byte.x43]) in
  let t3 := night_tick (mk_time 23 30 0 0) (mk_date 2024 1 6)
                       (serving "seg_001_20240106T2330.aac" [Byte.x44]) in
  let period i :=
    get_current_period (schedule_of (files i SCHEDULE_FILE)) (now_time i) in
  let r1 := main_loop example_base_url [t0; t1] initial_state in
  let r3 := main_loop example_base_url [t0; t1; t2; t3] initial_state in
  now_date t1 = now_date t3
  ∧ period t1 = Some over_midnight
  ∧ period t3 = Some over_midnight
  ∧ fst r3 = Ok tt
  ∧ current_combined_file (snd r1)
    = Some "sound/combined_20240105_2300_0100.aac"%string
  ∧ current_combined_file (snd r3)
    = Some "sound/combined_20240106_2300_0100.aac"%string
  ∧ disk (snd r3) !! "sound/combined_20240105_2300_0100.aac"%string
    = Some [Byte.x41; Byte.x42]
  ∧ disk (snd r3) !! "sound/combined_20240106_2300_0100.aac"%string
    = Some [Byte.x44].
Proof. by vm_compute. Qed.

Lemma target_named_on_opening_day_witness :
  let i1 := night_tick (mk_time 0 15 0 0) (mk_date 2024 1 6)
                       (serving "seg_001_20240106T0015.aac" [Byte.x42]) in
  let idle := night_tick (mk_time 12 0 0 0) (mk_date 2024 1 6)
                         (serving "seg_001_20240106T1200.aac" [Byte.x43]) in
  let i2 := night_tick (mk_time 23 30 0 0) (mk_date 2024 1 6)
                       (serving "seg_001_20240106T2330.aac" [Byte.x44]) in
  let period i :=
    get_current_period (schedule_of (files i SCHEDULE_FILE)) (now_time i) in
  falsy (api_url_of (files i1 API_FILE)) = false
  ∧ period i1 = Some over_midnight
  ∧ period i2 = Some over_midnight
  ∧ period idle = None
  ∧ calendar_date (now_date i1)
  ∧ current_period initial_state ≠ Some over_midnight
  ∧ current_combined_file
      (snd (main_loop example_base_url [i1; idle; i2] initial_state))
    = Some "sound/combined_20240106_2300_0100.aac"%string.
Proof.
  intros i1 idle i2 period.
  assert (Hd : calendar_date (mk_date 2024 1 6)) by (repeat split; cbn; lia).
  assert (Hne : current_period initial_state ≠ Some over_midnight)
    by (intros H; discriminate H).
  split; [ reflexivity | ]. split; [ reflexivity | ].
  split; [ reflexivity | ]. split; [ reflexivity | ].
  split; [ exact Hd | ]. split; [ exact Hne | ].
  apply (proj1 (proj2 (proj2 (proj2
           (target_named_on_opening_day example_base_url i1 i2
              initial_state initial_state over_midnight
              eq_refl eq_refl eq_refl eq_refl Hd Hd))))
           idle eq_refl eq_refl Hne eq_refl).
Defined.

Section Targets.
Variable base_url_of : string -> option string.

(** A cycle appends to no other path than the one it was given. *)
Lemma cycle_appends_to_its_path w api path s evs p d :
  trace (snd (fetch_and_combine_last_audio base_url_of w api path s))
  = trace s ++ evs →
  In (AppendedTo p d) evs → path = Some p.
Proof.
  intros Htr Hin.
  destruct (base_url_of api) as [ base | ] eqn:Hb.
  2: { rewrite cycle_rejected_url in Htr by done. cbn [snd] in Htr.
       rewrite <- (app_nil_r (trace s)) in Htr at 1.
       apply app_inv_head in Htr. by subst evs. }
  destruct (cycle_dichotomy base_url_of w api path s base Hb)
    as [ (text & last_url & id & p0 & c & Hpl & Hl & Hi & Hn & Hd & -> & Hni
          & Hnp & Hf)
       | Hno ].
  - rewrite (cycle_appends _ _ _ _ _ _ _ _ _ _ Hb Hpl Hl Hi Hn Hd Hf Hni Hnp)
      in Htr.
    cbn [snd trace] in Htr. apply app_inv_head in Htr. subst evs.
    cbn in Hin.
    repeat (destruct Hin as [ Hin | Hin ];
            [ try discriminate; by injection Hin as -> _ | ]).
    done.
  - destruct (cycle_without_append base_url_of w api path s base Hb Hno)
      as (r & s' & evs' & Hc & Htr' & _ & _ & _ & Hz & _).
    rewrite Hc in Htr. cbn [snd] in Htr. rewrite Htr' in Htr.
    apply app_inv_head in Htr. subst evs.
    destruct Hin as [ [=] | Hin ].
    by destruct (count_appends_none _ p d Hz).
Qed.

Section WithTargets.
Variable P : string → Prop.

Lemma iteration_appends_to_targets i s :
  (∀ w, w ∈ schedule_of (files i SCHEDULE_FILE) →
        window_matches (now_time i) w →
        P (combined_file_name (now_date i) w)) →
  target_in P s →
  target_in P (snd (iteration base_url_of i s))
  ∧ ∀ evs p d,
      trace (snd (iteration base_url_of i s)) = trace s ++ evs →
      In (AppendedTo p d) evs → P p.
Proof.
  intros HP Hs. rewrite iteration_eq.
  destruct (config_log_quiet (files i)) as [Ha _].
  destruct (falsy (api_url_of (files i API_FILE))).
  { cbn [snd]. split; [ exact Hs | ].
    intros evs p d Htr Hin. cbn [logged trace] in Htr.
    apply app_inv_head in Htr. subst evs.
    apply in_app_iff in Hin as [ Hin | Hin ].
    - by destruct (count_appends_none _ p d Ha).
    - by repeat destruct Hin as [ [=] | Hin ]. }
  destruct (resolved_facts i s) as (evs0 & (Htr0 & _) & Ha0 & _).
  assert (H3 : target_in P (resolved i s)).
  { unfold resolved.
    destruct (decide (get_current_period
                        (schedule_of (files i SCHEDULE_FILE)) (now_time i)
                      = current_period (logged (config_log (files i)) s)))
      as [ He | Hne ].
    - by rewrite update_period_same.
    - rewrite update_period_changed by done. cbn [snd].
      destruct (get_current_period _ _) as [ w | ] eqn:Hg.
      + intros _. eexists. split; [ reflexivity | ].
        apply get_current_period_some in Hg as [Hin Hm]. by apply HP.
      + by intros [w Hw]. }
  destruct (current_period (resolved i s)) as [ w | ] eqn:Hw.
  - destruct (cycle_summary base_url_of (world i)
                (default EmptyString (api_url_of (files i API_FILE)))
                (current_combined_file (resolved i s)) (resolved i s))
      as (r & s1 & evsC & Hc & (HtrC & _) & Hcp & Hcf & _).
    assert (HinC : ∀ p d, In (AppendedTo p d) evsC → P p).
    { intros p d Hin.
      assert (Hp : current_combined_file (resolved i s) = Some p).
      { eapply cycle_appends_to_its_path; [ | exact Hin ].
        by rewrite Hc. }
      destruct H3 as (p' & Hp' & HPp); [ by rewrite Hw | ].
      congruence. }
    assert (H1 : target_in P s1).
    { unfold target_in. rewrite Hcp, Hcf. exact H3. }
    unfold bind. rewrite Hc. destruct r as [ [] | e ]; cbn [snd].
    + split; [ exact H1 | ].
      intros evs p d Htr Hin. unfold emit, modify in Htr.
      cbn [snd add_event trace] in Htr.
      rewrite HtrC, Htr0, <- !app_assoc in Htr.
      apply app_inv_head in Htr. subst evs.
      apply in_app_iff in Hin as [ Hin | Hin ].
      * by destruct (count_appends_none _ p d Ha0).
      * apply in_app_iff in Hin as [ Hin | Hin ]; [ by eapply HinC | ].
        by destruct Hin as [ [=] | [] ].
    + split; [ exact H1 | ].
      intros evs p d Htr Hin.
      rewrite HtrC, Htr0, <- !app_assoc in Htr.
      apply app_inv_head in Htr. subst evs.
      apply in_app_iff in Hin as [ Hin | Hin ].
      * by destruct (count_appends_none _ p d Ha0).
      * by eapply HinC.
  - cbn [snd]. split.
    + intros [w' Hw']. cbn in Hw'. congruence.
    + intros evs p d Htr Hin. cbn [logged trace] in Htr.
      rewrite Htr0, <- !app_assoc in Htr.
      apply app_inv_head in Htr. subst evs.
      apply in_app_iff in Hin as [ Hin | Hin ].
      * by destruct (count_appends_none _ p d Ha0).
      * by repeat destruct Hin as [ [=] | Hin ].
Qed.

Lemma main_loop_appends_to_targets inputs s :
  (∀ i w, In i inputs →
          w ∈ schedule_of (files i SCHEDULE_FILE) →
          window_matches (now_time i) w →
          P (combined_file_name (now_date i) w)) →
  target_in P s →
  ∀ evs p d,
    trace (snd (main_loop base_url_of inputs s)) = trace s ++ evs →
    In (AppendedTo p d) evs → P p.
Proof.
  revert s. induction inputs as [ | i rest IH ]; intros s HP Hs evs p d.
  - cbn. intros Htr Hin.
    rewrite <- (app_nil_r (trace s)) in Htr at 1.
    apply app_inv_head in Htr. by subst evs.
  - cbn [main_loop]. unfold bind.
    destruct (iteration_appends_to_targets i s) as [H1 Hev1];
      [ intros w; apply HP; by left | done | ].
    destruct (iteration_summary base_url_of i s)
      as (r & s1 & evs1 & Hi & (Htr1 & _) & _).
    rewrite Hi in *. cbn [snd] in *.
    destruct r as [ [] | e ]; cbn [snd].
    + destruct (main_loop_summary base_url_of rest s1)
        as (r2 & s2 & evs2 & Hm & (Htr2 & _) & _).
      intros Htr Hin.
      assert (Htr2' : trace (snd (main_loop base_url_of rest s1))
                      = trace s1 ++ evs2) by (by rewrite Hm).
      rewrite Htr2', Htr1, <- app_assoc in Htr.
      apply app_inv_head in Htr. subst evs.
      apply in_app_iff in Hin as [ Hin | Hin ].
      * by eapply Hev1.
      * eapply (IH s1); [ | done | exact Htr2' | exact Hin ].
        intros i' w' Hi'. apply HP. by right.
    + intros Htr Hin. by eapply Hev1.
Qed.

End WithTargets.

(** X14. In a run of the main loop that starts with no period
    remembered, as the script does, every append goes to the combined
    file of a window that the schedule read at some iteration held and
    that contained that iteration's time, named with that iteration's
    date: nothing else is ever appended to. *)
Theorem appends_go_to_active_windows inputs s evs p d :
  current_period s = None →
  trace (snd (main_loop base_url_of inputs s)) = trace s ++ evs →
  In (AppendedTo p d) evs →
  ∃ i w, In i inputs
         ∧ w ∈ schedule_of (files i SCHEDULE_FILE)
         ∧ window_matches (now_time i) w
         ∧ p = combined_file_name (now_date i) w.
Proof.
  intros Hnone Htr Hin.
  apply (main_loop_appends_to_targets
           (λ p, ∃ i w, In i inputs
                        ∧ w ∈ schedule_of (files i SCHEDULE_FILE)
                        ∧ window_matches (now_time i) w
                        ∧ p = combined_file_name (now_date i) w)
           inputs s) with evs d; try done.
  - intros i w Hi Hw Hm. by exists i, w.
  - intros [w Hw]. congruence.
Qed.

End Targets.

Lemma length_append (a b : string) :
  String.length (a ++ b) = String.length a + String.length b.
Proof.
  induction a as [ | c a IH ]; [ done | ].
  change (String c a ++ b)%string with (String c (a ++ b)).
  cbn [String.length]. by rewrite IH.
Qed.

Lemma append_inv_tail (a b t : string) : (a ++ t = b ++ t)%string → a = b.
Proof.
  revert b. induction a as [ | c a IH ]; intros [ | c' b ] H.
  - done.
  - apply (f_equal String.length) in H.
    rewrite !length_append in H. cbn in H. lia.
  - apply (f_equal String.length) in H.
    rewrite !length_append in H. cbn in H. lia.
  - change (String c (a ++ t) = String c' (b ++ t))%string in H.
    injection H as -> H. f_equal. by apply IH.
Qed.

(** X12. The name under which a segment is remembered determines its
    id: two ids give the same entry of [PROCESSED_FILES], and the same
    scratch file, only if they are equal. *)
Theorem file_name_determines_id id1 id2 :
  file_name_of id1 = file_name_of id2 ↔ id1 = id2.
Proof.
  split; [ | by intros -> ].
  unfold file_name_of. intros H.
  apply String.app_inj in H. by apply append_inv_tail in H.
Qed.

Lemma lstrip_head s c r :
  PyStr.lstrip s = String c r → PyStr.is_space c = false.
Proof.
  induction s as [ | a s IH ]; [ done | ]. cbn [PyStr.lstrip].
  destruct (PyStr.is_space a) eqn:Ha; [ done | ].
  by intros [= <- _].
Qed.

Lemma rstrip_head s c r :
  PyStr.rstrip s = String c r → ∃ r0, s = String c r0.
Proof.
  destruct s as [ | a s ]; [ done | ]. cbn [PyStr.rstrip].
  destruct (_ && _); [ done | ]. intros [= <- _]. by eexists.
Qed.

Lemma rstrip_last s c :
  last_char (PyStr.rstrip s) = Some c → PyStr.is_space c = false.
Proof.
  induction s as [ | a s IH ]; [ done | ]. cbn [PyStr.rstrip].
  destruct (PyStr.rstrip s) as [ | b r ] eqn:Hr.
  - cbn [PyStr.is_empty]. rewrite andb_true_r.
    destruct (PyStr.is_space a) eqn:Ha; [ done | ].
    cbn. by intros [= <-].
  - cbn [PyStr.is_empty]. rewrite andb_false_r. cbn [last_char]. exact IH.
Qed.

(** X15. The URL that [load_api_url] returns, when it returns one,
    neither begins nor ends with white space: the line break that ends
    the first line of the file and any blanks around the URL are gone. *)
Theorem api_url_has_no_blank_ends files api_file s url :
  fst (load_api_url files api_file s) = Ok (Some url) →
  (∀ c r, url = String c r → PyStr.is_space c = false)
  ∧ (∀ c, last_char url = Some c → PyStr.is_space c = false).
Proof.
  rewrite load_api_url_eq. cbn [fst]. unfold api_url_of.
  destruct (files api_file) as [ | | text ]; try done.
  intros [= <-]. unfold PyStr.strip. split.
  - intros c r H. apply rstrip_head in H as [r0 H].
    by apply lstrip_head in H.
  - intros c. apply rstrip_last.
Qed.

Lemma api_url_has_no_blank_ends_witness :
  let files := example_files Missing
                 (Readable ("  http://radio.example/live/playlist.m3u8 "
                            ++ newline ++ "second line")%string) in
  fst (load_api_url files API_FILE initial_state) = Ok (Some example_api)
  ∧ (∀ c r, example_api = String c r → PyStr.is_space c = false)
  ∧ (∀ c, last_char example_api = Some c → PyStr.is_space c = false).
Proof.
  intros files. split; [ reflexivity | ].
  apply (api_url_has_no_blank_ends files API_FILE initial_state example_api
           eq_refl).
Defined.

Lemma refused_download_is_skipped_witness :
  let w := mk_outside (λ _, Some example_playlist) (λ _, DlRefused) NoFault in
  let base := "http://radio.example/live/"%string in
  example_base_url example_api = Some base
  ∧ (file_name_of "20240101T0005" ∉ PROCESSED_FILES initial_state)
  ∧ fetch_and_combine_last_audio example_base_url w example_api
      (Some "sound/c.aac"%string) initial_state
    = (Ok tt,
       logged [HttpGet example_api;
               HttpGet (base ++ "seg_001_20240101T0005.aac");
               Print (FailedDownload "seg_001_20240101T0005.aac")]
              initial_state).
Proof.
  intros w base.
  assert (Hnew : file_name_of "20240101T0005" ∉ PROCESSED_FILES initial_state)
    by apply not_elem_of_empty.
  split; [ reflexivity | ]. split; [ exact Hnew | ].
  apply (refused_download_is_skipped example_base_url w example_api
           (Some "sound/c.aac"%string) initial_state base example_playlist
           "seg_001_20240101T0005.aac" "20240101T0005"
           eq_refl eq_refl eq_refl eq_refl Hnew eq_refl).
Defined.

Lemma unusable_playlist_is_skipped_witness :
  let down := mk_outside (λ _, None) (λ _, DlRefused) NoFault in
  let empty := mk_outside (λ _, Some ""%string) (λ _, DlRefused) NoFault in
  example_base_url example_api = Some "http://radio.example/live/"%string
  ∧ playlist_of down example_api = None
  ∧ Forall (λ line, PyStr.contains ".aac" line = false)
           (PyStr.splitlines "")
  ∧ fetch_and_combine_last_audio example_base_url down example_api None
      initial_state
    = (Ok tt, logged [HttpGet example_api; Print ErrorFetchingPlaylist]
                     initial_state)
  ∧ fetch_and_combine_last_audio example_base_url empty example_api None
      initial_state
    = (Ok tt, logged [HttpGet example_api; Print NoAudioUrls] initial_state).
Proof.
  intros down empty.
  assert (Hall : Forall (λ line, PyStr.contains ".aac" line = false)
                        (PyStr.splitlines "")) by constructor.
  split; [ reflexivity | ].
  split; [ reflexivity | ]. split; [ exact Hall | ]. split.
  - apply (proj1 (unusable_playlist_is_skipped example_base_url down
                    example_api None initial_state
                    "http://radio.example/live/" eq_refl) eq_refl).
  - apply (proj2 (unusable_playlist_is_skipped example_base_url empty
                    example_api None initial_state
                    "http://radio.example/live/" eq_refl)
             ""%string eq_refl Hall).
Defined.

Lemma idle_outside_every_window_witness :
  let i := mk_tick (example_files Missing example_api_file)
                   (mk_time 9 30 0 0) example_day (example_world NoFault) in
  falsy (api_url_of (files i API_FILE)) = false
  ∧ get_current_period (schedule_of (files i SCHEDULE_FILE)) (now_time i)
    = None
  ∧ iteration example_base_url i initial_state
    = (Ok tt,
       mk_state None None ∅ ∅
                [Print (ScheduleNotFound SCHEDULE_FILE);
                 Print NoActivePeriod; Sleep 10]).
Proof.
  intros i. split; [ reflexivity | ]. split; [ reflexivity | ].
  apply (idle_outside_every_window example_base_url i initial_state
           eq_refl eq_refl).
Defined.

Lemma period_independent_of_order_witness :
  let t := mk_time 9 30 0 0 in
  [nine_to_ten; over_midnight] ≡ₚ [over_midnight; nine_to_ten]
  ∧ (∀ w1 w2, w1 ∈ [nine_to_ten; over_midnight] →
              w2 ∈ [nine_to_ten; over_midnight] →
              window_matches t w1 → window_matches t w2 → w1 = w2)
  ∧ get_current_period [nine_to_ten; over_midnight] t
    = get_current_period [over_midnight; nine_to_ten] t.
Proof.
  intros t.
  assert (Hp : [nine_to_ten; over_midnight] ≡ₚ [over_midnight; nine_to_ten])
    by apply perm_swap.
  assert (Hno : ¬ window_matches t over_midnight).
  { intros [ (H & _) | (_ & [ H | H ]) ]; vm_compute in H; discriminate H. }
  assert (Hu : ∀ w1 w2, w1 ∈ [nine_to_ten; over_midnight] →
                        w2 ∈ [nine_to_ten; over_midnight] →
                        window_matches t w1 → window_matches t w2 → w1 = w2).
  { intros w1 w2 H1 H2 M1 M2.
    apply elem_of_cons in H1 as [ -> | H1 ];
      [ | apply list_elem_of_singleton in H1 as ->; by destruct Hno ].
    apply elem_of_cons in H2 as [ -> | H2 ]; [ reflexivity | ].
    apply list_elem_of_singleton in H2 as ->. by destruct Hno. }
  split; [ exact Hp | ]. split; [ exact Hu | ].
  apply (period_independent_of_order _ _ t Hp Hu).
Defined.

Lemma appends_go_to_active_windows_witness :
  let i := example_tick example_api_file (example_world NoFault) in
  let target := "sound/combined_20240105_0900_1000.aac"%string in
  let evs := trace (snd (main_loop example_base_url [i; i] initial_state)) in
  current_period initial_state = None
  ∧ In (AppendedTo target example_content) evs
  ∧ ∃ i' w, In i' [i; i]
            ∧ w ∈ schedule_of (files i' SCHEDULE_FILE)
            ∧ window_matches (now_time i') w
            ∧ target = combined_file_name (now_date i') w.
Proof.
  intros i target evs.
  assert (Hin : In (AppendedTo target example_content) evs).
  { vm_compute. do 4 right. left. reflexivity. }
  split; [ reflexivity | ]. split; [ exact Hin | ].
  apply (appends_go_to_active_windows example_base_url [i; i] initial_state
           evs target example_content eq_refl eq_refl Hin).
Defined.

Lemma time_compare_opp a b :
  time_compare b a = CompOpp (time_compare a b).
Proof.
  unfold time_compare.
  rewrite (Nat.compare_antisym (hour a) (hour b)),
    (Nat.compare_antisym (minute a) (minute b)),
    (Nat.compare_antisym (second a) (second b)),
    (Nat.compare_antisym (microsecond a) (microsecond b)).
  by destruct (hour a ?= hour b), (minute a ?= minute b),
    (second a ?= second b), (microsecond a ?= microsecond b).
Qed.

Lemma time_compare_eq a b : time_compare a b = Eq → a = b.
Proof.
  unfold time_compare.
  destruct a as [h m s u], b as [h' m' s' u']. cbn.
  destruct (Nat.compare_spec h h') as [ -> | | ]; try done.
  destruct (Nat.compare_spec m m') as [ -> | | ]; try done.
  destruct (Nat.compare_spec s s') as [ -> | | ]; try done.
  destruct (Nat.compare_spec u u') as [ -> | | ]; done.
Qed.

Lemma time_le_antisym a b : time_le a b → time_le b a → a = b.
Proof.
  unfold time_le, time_leb. rewrite (time_compare_opp a b).
  intros Hab Hba. apply time_compare_eq.
  by destruct (time_compare a b).
Qed.

(** X16. A window whose two bounds are equal contains that instant and
    no other: a line such as [09:00-09:00] is active at 09:00:00 sharp
    only. *)
Theorem window_of_one_instant s rest t :
  get_current_period ((s, s) :: rest) t = Some (s, s) ↔
  t = s ∨ get_current_period rest t = Some (s, s).
Proof.
  rewrite get_current_period_cons.
  assert (Hm : window_matches t (s, s) ↔ t = s).
  { unfold window_matches. cbn [fst snd]. pose proof (time_le_refl s). split.
    - intros [ (_ & H1 & H2) | (Hn & _) ]; [ | done ].
      by apply time_le_antisym.
    - intros ->. by left. }
  case_decide as Hd.
  - split; [ intros _; left; by apply Hm | done ].
  - split; [ by right | ]. intros [ -> | H ]; [ | done ].
    destruct Hd. by apply Hm.
Qed.

(** X17. A window ends at the first instant of its last minute: with
    an end on a whole minute, as the schedule file gives it, a normal
    window does not contain a time of that hour and minute that has
    seconds or microseconds. The line [09:00-10:00] is over at
    10:00:00.000001. *)
Theorem window_ends_with_its_last_minute s e rest t :
  whole_minute e →
  time_le s e →
  hour t = hour e → minute t = minute e →
  0 < second t ∨ 0 < microsecond t →
  get_current_period ((s, e) :: rest) t = get_current_period rest t.
Proof.
  intros (_ & _ & Hs & Hu) Hse Hh Hm Hpos.
  rewrite get_current_period_cons. case_decide as Hd; [ | done ].
  exfalso. destruct Hd as [ (_ & _ & Hte) | (Hn & _) ]; [ | done ].
  cbn [snd] in Hte. unfold time_le, time_leb, time_compare in Hte.
  rewrite Hh, Hm, Hs, Hu, !Nat.compare_refl in Hte.
  destruct (Nat.compare_spec (second t) 0);
    destruct (Nat.compare_spec (microsecond t) 0);
    try discriminate; lia.
Qed.

Lemma window_ends_with_its_last_minute_witness :
  whole_minute (snd nine_to_ten)
  ∧ time_le (fst nine_to_ten) (snd nine_to_ten)
  ∧ get_current_period [nine_to_ten] (mk_time 10 0 0 1) = None.
Proof.
  assert (Hw : whole_minute (snd nine_to_ten)) by (repeat split; cbn; lia).
  split; [ exact Hw | ]. split; [ reflexivity | ].
  apply (window_ends_with_its_last_minute (fst nine_to_ten) (snd nine_to_ten)
           [] (mk_time 10 0 0 1) Hw eq_refl eq_refl eq_refl).
  right. cbn. lia.
Defined.

Section Cleanup.
Variable base_url_of : string -> option string.

(** X18. A cycle that appends and meets no fault of the disk returns
    normally with the scratch file of its segment removed. The cycle
    gets that far when [urlparse] accepts the URL and neither path has
    a NUL character. *)
Theorem scratch_file_removed_after_append w api p s base text last_url id
    content :
  base_url_of api = Some base →
  playlist_of w api = Some text →
  last_segment text = Some last_url →
  segment_id last_url = Some id →
  file_name_of id ∉ PROCESSED_FILES s →
  segment_of w (base ++ last_url) = DlServed content →
  has_nul id = false →
  has_nul p = false →
  fault w = NoFault →
  let r := fetch_and_combine_last_audio base_url_of w api (Some p) s in
  fst r = Ok tt
  ∧ disk (snd r) !! temp_path (file_name_of id) = None.
Proof.
  intros Hb Hpl Hl Hi Hn Hd Hni Hnp Hf r. subst r.
  assert (Hok : append_succeeds (fault w) = true) by (by rewrite Hf).
  rewrite (cycle_appends _ _ _ _ _ _ _ _ _ _ Hb Hpl Hl Hi Hn Hd Hok Hni Hnp).
  rewrite Hf. cbn. by rewrite lookup_delete_eq.
Qed.

End Cleanup.

Lemma scratch_file_removed_after_append_witness :
  let r := fetch_and_combine_last_audio example_base_url
             (example_world NoFault) example_api
             (Some "sound/c.aac"%string) initial_state in
  (file_name_of "20240101T0005" ∉ PROCESSED_FILES initial_state)
  ∧ fst r = Ok tt
  ∧ disk (snd r) !! temp_path (file_name_of "20240101T0005") = None.
Proof.
  intros r.
  assert (Hnew : file_name_of "20240101T0005" ∉ PROCESSED_FILES initial_state)
    by apply not_elem_of_empty.
  split; [ exact Hnew | ].
  apply (scratch_file_removed_after_append example_base_url
           (example_world NoFault) example_api "sound/c.aac" initial_state
           "http://radio.example/live/"
           example_playlist "seg_001_20240101T0005.aac" "20240101T0005"
           example_content eq_refl eq_refl eq_refl eq_refl Hnew eq_refl
           eq_refl eq_refl eq_refl).
Defined.

Section BadInputs.
Variable base_url_of : string -> option string.

Lemma resolved_disk i s : disk (resolved i s) = disk s.
Proof.
  unfold resolved.
  destruct (decide (get_current_period (schedule_of (files i SCHEDULE_FILE))
                      (now_time i)
                    = current_period (logged (config_log (files i)) s))).
  - by rewrite update_period_same.
  - rewrite update_period_changed by done.
    by destruct (get_current_period _ _).
Qed.

Lemma resolved_requests i s :
  ∃ evs, trace (resolved i s) = trace s ++ evs
         ∧ ∀ url, ¬ In (HttpGet url) evs.
Proof.
  assert (Hq : ∀ url, ¬ In (HttpGet url) (config_log (files i))).
  { intros url. unfold config_log, schedule_log, api_log.
    destruct (files i SCHEDULE_FILE) as [ | | text ], (files i API_FILE);
      try destruct (snd (read_schedule (readlines text) []));
      cbn; intros H; repeat destruct H as [ H | H ]; done. }
  unfold resolved.
  destruct (decide (get_current_period (schedule_of (files i SCHEDULE_FILE))
                      (now_time i)
                    = current_period (logged (config_log (files i)) s))).
  - rewrite update_period_same by done. cbn. by eauto.
  - rewrite update_period_changed by done. cbn [snd].
    destruct (get_current_period _ _) as [ w | ]; cbn [trace logged].
    + rewrite <- app_assoc. eexists. split; [ reflexivity | ].
      intros url Hin. apply in_app_iff in Hin as [ Hin | Hin ].
      * by destruct (Hq url).
      * by destruct Hin as [ [=] | [] ].
    + by eauto.
Qed.

(** X20. A text in the API file that [urlparse] rejects ends the
    process as soon as a window is active: the iteration raises
    [ValueError] before anything is asked of the network, and the main
    loop, which has no handler, ends with it, without sleeping; the set
    and the disk are as before. *)
Theorem rejected_url_ends_main_loop i rest s api :
  api_url_of (files i API_FILE) = Some api →
  falsy (Some api) = false →
  base_url_of api = None →
  is_Some (get_current_period (schedule_of (files i SCHEDULE_FILE))
                              (now_time i)) →
  ∃ s' evs,
    main_loop base_url_of (i :: rest) s = (Raised ValueError, s')
    ∧ trace s' = trace s ++ evs
    ∧ (∀ url, ¬ In (HttpGet url) evs)
    ∧ count_sleeps evs = 0
    ∧ PROCESSED_FILES s' = PROCESSED_FILES s
    ∧ disk s' = disk s.
Proof.
  intros Hu Hf Hb Hw.
  destruct (resolved_requests i s) as (evs & Htr & Hq).
  destruct (resolved_facts i s) as (evs0 & (Htr0 & _) & _ & Hsl & _).
  rewrite Htr in Htr0. apply app_inv_head in Htr0. subst evs0.
  exists (resolved i s), evs. split.
  - apply main_loop_stops. apply (iteration_raises _ _ _ api); try done.
    + by rewrite current_period_resolved.
    + by apply cycle_rejected_url.
  - split; [ done | ]. split; [ done | ]. split; [ done | ].
    split; [ apply resolved_processed | apply resolved_disk ].
Qed.

(** X21. A segment id with a NUL character ends the cycle with the
    [ValueError] that [open] raises on the scratch path: the segment
    has been asked for, nothing is written or marked, and the error,
    which is not a [requests.RequestException], leaves the cycle. *)
Theorem nul_in_segment_id_raises w api path s base text last_url id :
  base_url_of api = Some base →
  playlist_of w api = Some text →
  last_segment text = Some last_url →
  segment_id last_url = Some id →
  file_name_of id ∉ PROCESSED_FILES s →
  segment_of w (base ++ last_url) ≠ DlRefused →
  fault w ≠ MakedirsFails →
  has_nul id = true →
  fetch_and_combine_last_audio base_url_of w api path s =
  (Raised ValueError, logged [HttpGet api; HttpGet (base ++ last_url)] s).
Proof.
  intros Hb Hpl Hl Hi Hn Hd Hf Hni.
  rewrite <- has_nul_temp_path in Hni.
  rewrite (cycle_selected _ _ _ _ _ _ _ _ _ Hb Hpl Hl Hi Hn).
  unfold try_except, download_and_append, file_op, guard.
  fold (temp_path (file_name_of id)). rewrite Hni.
  destruct s as [cp cf ps d tr].
  destruct (segment_of w (base ++ last_url)); [ done | | ];
    destruct (fault w); try done; run; unfold logged; cbn;
    by rewrite <- !app_assoc.
Qed.

End BadInputs.

Lemma rejected_url_ends_main_loop_witness :
  let api_file := Readable (rejected_api ++ newline)%string in
  let i := example_tick api_file (example_world NoFault) in
  api_url_of (files i API_FILE) = Some rejected_api
  ∧ falsy (Some rejected_api) = false
  ∧ example_base_url rejected_api = None
  ∧ is_Some (get_current_period (schedule_of (files i SCHEDULE_FILE))
                                (now_time i))
  ∧ ∃ s' evs,
      main_loop example_base_url [i; i] initial_state
      = (Raised ValueError, s')
      ∧ trace s' = trace initial_state ++ evs
      ∧ (∀ url, ¬ In (HttpGet url) evs)
      ∧ count_sleeps evs = 0.
Proof.
  intros api_file i.
  assert (Hw : is_Some (get_current_period
                          (schedule_of (files i SCHEDULE_FILE)) (now_time i)))
    by (exists nine_to_ten; reflexivity).
  split; [ reflexivity | ]. split; [ reflexivity | ].
  split; [ reflexivity | ]. split; [ exact Hw | ].
  destruct (rejected_url_ends_main_loop example_base_url i [i] initial_state
              rejected_api eq_refl eq_refl eq_refl Hw)
    as (s' & evs & H1 & H2 & H3 & H4 & _).
  exists s', evs. split; [ exact H1 | ]. split; [ exact H2 | ].
  split; [ exact H3 | exact H4 ].
Defined.

Lemma nul_in_segment_id_raises_witness :
  let w := serving nul_reference example_content in
  let base := "http://radio.example/live/"%string in
  let id := String (ascii_of_nat 0) "T0005" in
  example_base_url example_api = Some base
  ∧ last_segment nul_reference = Some nul_reference
  ∧ segment_id nul_reference = Some id
  ∧ (file_name_of id ∉ PROCESSED_FILES initial_state)
  ∧ has_nul id = true
  ∧ fetch_and_combine_last_audio example_base_url w example_api
      (Some "sound/c.aac"%string) initial_state
    = (Raised ValueError,
       logged [HttpGet example_api; HttpGet (base ++ nul_reference)]
              initial_state).
Proof.
  intros w base id.
  assert (Hnew : file_name_of id ∉ PROCESSED_FILES initial_state)
    by apply not_elem_of_empty.
  assert (Hd : segment_of w (base ++ nul_reference) ≠ DlRefused)
    by (intros H; discriminate H).
  assert (Hf : fault w ≠ MakedirsFails) by (intros H; discriminate H).
  split; [ reflexivity | ]. split; [ reflexivity | ].
  split; [ reflexivity | ]. split; [ exact Hnew | ].
  split; [ reflexivity | ].
  apply (nul_in_segment_id_raises example_base_url w example_api
           (Some "sound/c.aac"%string) initial_state base nul_reference
           nul_reference id eq_refl eq_refl eq_refl eq_refl Hnew Hd Hf
           eq_refl).
Defined.

Lemma appended_data_app q evs1 evs2 :
  appended_data q (evs1 ++ evs2)
  = appended_data q evs1 ++ appended_data q evs2.
Proof.
  induction evs1 as [ | e evs1 IH ]; [ done | ].
  destruct e; cbn [app appended_data]; try done.
  by rewrite IH, app_assoc.
Qed.

Lemma appended_data_quiet q evs :
  count_appends evs = 0 → appended_data q evs = [].
Proof.
  induction evs as [ | e evs IH ]; [ done | ].
  destruct e; cbn; try done. all: exact IH.
Qed.

Lemma content_facts_logged evs s :
  count_appends evs = 0 → content_facts s (logged evs s) evs.
Proof.
  intros Hc. split; [ done | ]. intros q _.
  rewrite (appended_data_quiet q evs Hc). cbn. by rewrite app_nil_r.
Qed.

Lemma content_facts_trans s1 s2 s3 evs1 evs2 :
  content_facts s1 s2 evs1 → content_facts s2 s3 evs2 →
  content_facts s1 s3 (evs1 ++ evs2).
Proof.
  intros [Ht1 Hc1] [Ht2 Hc2]. split; [ by rewrite Ht2, Ht1, app_assoc | ].
  intros q Hq. by rewrite Hc2, Hc1, appended_data_app, app_assoc.
Qed.

Lemma content_after_append (d : gmap string bytes) (t p q : string)
    (c c' : bytes) :
  q ≠ t →
  content_of (<[p := default [] (<[t := c]> d !! p) ++ c']> (<[t := c]> d)) q
  = content_of d q ++ (if decide (p = q) then c' else []).
Proof.
  intros Hq. unfold content_of. case_decide as Hp.
  - subst p. rewrite lookup_insert_eq. cbn.
    by rewrite lookup_insert_ne.
  - rewrite !lookup_insert_ne by done. by rewrite app_nil_r.
Qed.

Lemma download_and_append_content w base last name path s :
  whole_writes w →
  ∃ r s' evs,
    download_and_append w base last name path s = (r, s')
    ∧ trace s' = trace s ++ evs
    ∧ ∀ q, q ≠ temp_path name →
           content_of (disk s') q
           = content_of (disk s) q ++ appended_data q evs.
Proof.
  intros Hw. unfold download_and_append, file_op, guard.
  fold (temp_path name).
  destruct s as [cp cf ps d tr].
  assert (H0 : ∀ q, content_of d q = content_of d q ++ [])
    by (intros q; by rewrite app_nil_r).
  assert (H1 : ∀ c q, q ≠ temp_path name →
                 content_of (<[temp_path name := c]> d) q
                 = content_of d q ++ []).
  { intros c q Hq. unfold content_of.
    rewrite lookup_insert_ne by done. by rewrite app_nil_r. }
  assert (H2 : ∀ c p c' q, q ≠ temp_path name →
    content_of (delete (temp_path name)
                  (<[p := default [] (<[temp_path name := c]> d !! p) ++ c']>
                     (<[temp_path name := c]> d))) q
    = content_of d q ++ (if decide (p = q) then c' else []) ++ []).
  { intros c p c' q Hq. rewrite app_nil_r.
    rewrite <- (content_after_append d (temp_path name) p q c c' Hq).
    unfold content_of. by rewrite lookup_delete_ne. }
  assert (H3 : ∀ c p c' q, q ≠ temp_path name →
    content_of (<[p := default [] (<[temp_path name := c]> d !! p) ++ c']>
                  (<[temp_path name := c]> d)) q
    = content_of d q ++ (if decide (p = q) then c' else []) ++ []).
  { intros c p c' q Hq. rewrite app_nil_r.
    by apply content_after_append. }
  destruct (segment_of w (base ++ last)) as [ | | content ] eqn:Hdl.
  - eexists _, _, _. run. split; [ reflexivity | ].
    split; [ reflexivity | ]. intros q _. apply H0.
  - destruct (has_nul (temp_path name)); destruct (fault w); run;
      eexists _, _, _; (split; [ reflexivity | ]);
      rewrite <- ?app_assoc; cbn [app];
      (split; [ reflexivity | ]); cbn [disk appended_data];
      rewrite ?insert_insert_eq;
      intros q Hq; by first [ apply H0 | apply H1 ].
  - destruct (has_nul (temp_path name));
      [ destruct path as [ p | ] | destruct path as [ p | ];
                                   [ destruct (has_nul p) | ] ];
      destruct (fault w) eqn:Hf;
      try (by destruct (Hw written)); run;
      rewrite ?insert_insert_eq, ?read_back; run;
      rewrite ?lookup_insert_eq, ?insert_insert_eq; run;
      eexists _, _, _; (split; [ reflexivity | ]);
      rewrite <- ?app_assoc; cbn [app];
      (split; [ reflexivity | ]); cbn [disk appended_data];
      intros q Hq;
      by first [ apply H0 | apply H1 | apply H2 | apply H3 ].
Qed.

Section Contents.
Variable base_url_of : string -> option string.

Lemma cycle_content w api path s :
  whole_writes w →
  ∃ r s' evs,
    fetch_and_combine_last_audio base_url_of w api path s = (r, s')
    ∧ content_facts s s' evs.
Proof.
  intros Hw.
  assert (Hlog : ∀ evs (r : result unit),
    count_appends evs = 0 →
    ∃ r0 s' evs0, (r, logged evs s) = (r0, s') ∧ content_facts s s' evs0).
  { intros evs r Hc. exists r, (logged evs s), evs.
    split; [ done | by apply content_facts_logged ]. }
  destruct (base_url_of api) as [ base | ] eqn:Hb.
  2: { rewrite cycle_rejected_url by done.
       destruct (Hlog [] (Raised ValueError) eq_refl)
         as (r0 & s' & evs0 & Heq & H).
       rewrite logged_nil in Heq. by exists r0, s', evs0. }
  destruct (playlist_of w api) as [ text | ] eqn:Hpl.
  2: { rewrite (cycle_playlist_error _ _ _ _ _ base) by done. by apply Hlog. }
  destruct (last_segment text) as [ last_url | ] eqn:Hl.
  2: { rewrite (cycle_no_audio _ _ _ _ _ base text) by done. by apply Hlog. }
  destruct (segment_id last_url) as [ id | ] eqn:Hi.
  2: { rewrite (cycle_malformed _ _ _ _ _ base text last_url) by done.
       by apply Hlog. }
  destruct (decide (file_name_of id ∈ PROCESSED_FILES s)) as [ Hold | Hnew ].
  { rewrite (cycle_already_processed _ _ _ _ _ base text last_url id) by done.
    by apply Hlog. }
  rewrite (cycle_selected _ _ _ _ _ _ _ _ _ Hb Hpl Hl Hi Hnew).
  unfold try_except.
  destruct (download_and_append_content w base last_url
              (file_name_of id) path (add_event (HttpGet api) s) Hw)
    as (r & s1 & evs & -> & Htr & Hc).
  cbn [add_event trace disk] in *.
  assert (Hfacts : content_facts s s1 (HttpGet api :: evs)).
  { split; [ by rewrite Htr, <- app_assoc | ].
    intros q Hq. cbn [appended_data]. apply Hc.
    intros ->. apply Hq, temp_path_is_scratch. }
  destruct r as [ [] | e ]; [ by eexists _, _, _ | ].
  destruct (is_request_exception e); [ | by eexists _, _, _ ].
  exists (Ok tt), (logged [Print (FailedDownload last_url)] s1),
    ((HttpGet api :: evs) ++ [Print (FailedDownload last_url)]).
  split; [ done | ].
  eapply content_facts_trans; [ done | by apply content_facts_logged ].
Qed.

Lemma iteration_content i s :
  whole_writes (world i) →
  ∃ r s' evs,
    iteration base_url_of i s = (r, s') ∧ content_facts s s' evs.
Proof.
  intros Hw. rewrite iteration_eq.
  destruct (config_log_quiet (files i)) as [Ha _].
  destruct (falsy (api_url_of (files i API_FILE))).
  { eexists _, _, _. split; [ reflexivity | ].
    apply content_facts_logged. by rewrite count_appends_app, Ha. }
  assert (∃ evs0, content_facts s (resolved i s) evs0) as [evs0 H3].
  { destruct (resolved_facts i s) as (evs0 & (Htr0 & _) & Ha0 & _).
    exists evs0. split; [ done | ]. intros q _.
    rewrite (appended_data_quiet q evs0 Ha0), app_nil_r.
    unfold resolved.
    destruct (decide (get_current_period
                        (schedule_of (files i SCHEDULE_FILE)) (now_time i)
                      = current_period (logged (config_log (files i)) s))).
    - by rewrite update_period_same.
    - rewrite update_period_changed by done.
      by destruct (get_current_period _ _). }
  destruct (current_period (resolved i s)) as [ w | ].
  - destruct (cycle_content (world i)
                (default EmptyString (api_url_of (files i API_FILE)))
                (current_combined_file (resolved i s)) (resolved i s) Hw)
      as (r & s1 & evs & Hc & Hf).
    unfold bind. rewrite Hc. destruct r as [ [] | e ].
    + exists (Ok tt), (logged [Sleep 10] s1), ((evs0 ++ evs) ++ [Sleep 10]).
      split; [ done | ].
      eapply content_facts_trans; [ by eapply content_facts_trans | ].
      by apply content_facts_logged.
    + exists (Raised e), s1, (evs0 ++ evs).
      split; [ done | by eapply content_facts_trans ].
  - eexists _, _, _. split; [ reflexivity | ].
    eapply content_facts_trans; [ exact H3 | ].
    by apply content_facts_logged.
Qed.

Lemma main_loop_content inputs s :
  (∀ i, In i inputs → whole_writes (world i)) →
  ∃ r s' evs,
    main_loop base_url_of inputs s = (r, s') ∧ content_facts s s' evs.
Proof.
  revert s. induction inputs as [ | i rest IH ]; intros s Hw.
  - exists (Ok tt), s, []. split; [ done | ].
    rewrite <- (logged_nil s) at 2. by apply content_facts_logged.
  - cbn [main_loop]. unfold bind.
    destruct (iteration_content i s) as (r & s1 & evs1 & -> & Hf1);
      [ apply Hw; by left | ].
    destruct r as [ [] | e ]; [ | by eexists _, _, _ ].
    destruct (IH s1) as (r2 & s2 & evs2 & -> & Hf2);
      [ intros i' Hi'; apply Hw; by right | ].
    exists r2, s2, (evs1 ++ evs2).
    split; [ done | by eapply content_facts_trans ].
Qed.

(** X2. Over any run of the main loop on a disk whose writes to the
    combined file never stop half way, the number of appends equals the
    number of file names that [PROCESSED_FILES] gained, there is at most
    one append per iteration, and the bytes of each append are on the
    disk: every file outside the scratch directory holds what it held at
    the start followed by what was appended to it. *)
Theorem every_append_is_a_new_segment inputs s :
  (∀ i, In i inputs → whole_writes (world i)) →
  let s' := snd (main_loop base_url_of inputs s) in
  ∃ evs, trace s' = trace s ++ evs
         ∧ size (PROCESSED_FILES s')
           = size (PROCESSED_FILES s) + count_appends evs
         ∧ count_appends evs <= length inputs
         ∧ ∀ q, ¬ is_scratch q →
                content_of (disk s') q
                = content_of (disk s) q ++ appended_data q evs.
Proof.
  intros Hw.
  destruct (main_loop_summary base_url_of inputs s)
    as (r & s' & evs & Hm & (Htr & _ & Hsz & _) & _ & Hle & _).
  destruct (main_loop_content inputs s Hw)
    as (r' & s'' & evs' & Hm' & Htr' & Hc).
  rewrite Hm in Hm'. injection Hm' as <- <-.
  rewrite Htr in Htr'. apply app_inv_head in Htr'. subst evs'.
  rewrite Hm. by exists evs.
Qed.

(** X19. Over any run of the main loop on a disk whose writes to the
    combined file never stop half way, the content of every file outside
    the scratch directory is what it was at the start followed by the
    data of the appends made to it, in the order in which they were
    made: nothing is lost, repeated or reordered. *)
Theorem combined_files_hold_the_appends_in_order inputs s q :
  (∀ i, In i inputs → whole_writes (world i)) →
  ¬ is_scratch q →
  let s' := snd (main_loop base_url_of inputs s) in
  ∃ evs, trace s' = trace s ++ evs
         ∧ content_of (disk s') q
           = content_of (disk s) q ++ appended_data q evs.
Proof.
  intros Hw Hq.
  destruct (main_loop_content inputs s Hw) as (r & s' & evs & -> & Htr & Hc).
  exists evs. split; [ done | by apply Hc ].
Qed.

End Contents.

Lemma combined_files_hold_the_appends_in_order_witness :
  let i := example_tick example_api_file (example_world NoFault) in
  let target := "sound/combined_20240105_0900_1000.aac"%string in
  let s := mk_state None None ∅ {[ target := [Byte.x30] ]} [] in
  let s' := snd (main_loop example_base_url [i; i] s) in
  (∀ i', In i' [i; i] → whole_writes (world i'))
  ∧ ¬ is_scratch target
  ∧ ∃ evs, trace s' = trace s ++ evs
           ∧ content_of (disk s') target
             = content_of (disk s) target ++ appended_data target evs.
Proof.
  intros i target s s'.
  assert (Hw : ∀ i', In i' [i; i] → whole_writes (world i')).
  { intros i' [ <- | [ <- | [] ] ] n H; discriminate H. }
  assert (Hq : ¬ is_scratch target) by (intros H; discriminate H).
  split; [ exact Hw | ]. split; [ exact Hq | ].
  apply (combined_files_hold_the_appends_in_order example_base_url [i; i] s
           target Hw Hq).
Defined.

Lemma every_append_is_a_new_segment_witness :
  let i := example_tick example_api_file (example_world NoFault) in
  let target := "sound/combined_20240105_0900_1000.aac"%string in
  let s := mk_state None None ∅ {[ target := [Byte.x30] ]} [] in
  let s' := snd (main_loop example_base_url [i; i] s) in
  (∀ i', In i' [i; i] → whole_writes (world i'))
  ∧ ¬ is_scratch target
  ∧ ∃ evs, trace s' = trace s ++ evs
           ∧ size (PROCESSED_FILES s')
             = size (PROCESSED_FILES s) + count_appends evs
           ∧ content_of (disk s') target
             = content_of (disk s) target ++ appended_data target evs.
Proof.
  intros i target s s'.
  assert (Hw : ∀ i', In i' [i; i] → whole_writes (world i')).
  { intros i' [ <- | [ <- | [] ] ] n H; discriminate H. }
  assert (Hq : ¬ is_scratch target) by (intros H; discriminate H).
  split; [ exact Hw | ]. split; [ exact Hq | ].
  destruct (every_append_is_a_new_segment example_base_url [i; i] s Hw)
    as (evs & Htr & Hsz & _ & Hc).
  exists evs. split; [ exact Htr | ]. split; [ exact Hsz | ].
  exact (Hc target Hq).
Defined.

Lemma file_name_determines_id_witness :
  file_name_of "20240101T0000" ≠ file_name_of "20240101T0005".
Proof.
  intros H.
  apply (proj1 (file_name_determines_id "20240101T0000" "20240101T0005"))
    in H.
  discriminate H.
Defined.

Lemma window_of_one_instant_witness :
  get_current_period [(mk_time 9 0 0 0, mk_time 9 0 0 0)] (mk_time 9 0 0 0)
  = Some (mk_time 9 0 0 0, mk_time 9 0 0 0).
Proof.
  apply (proj2 (window_of_one_instant (mk_time 9 0 0 0) [] (mk_time 9 0 0 0))).
  left. reflexivity.
Defined.
